(** * Ego-splitting (karateclub, [EgoNetSplitter]): a shallow embedding

    The estimator of
    [karateclub/community_detection/overlapping/ego_splitter.py] is embedded
    as a state-and-exception monad over a record holding the attributes of
    the Python object.  The fragment of networkx the estimator calls
    ([Graph.nodes], [neighbors], [subgraph], [edges], [connected_components],
    [from_edgelist]) is written out over insertion-ordered dictionaries; the
    Louvain optimiser and the base class's graph check are parameters.

    Node ids, persona ids and community ids are natural numbers, weights are
    integers standing for whatever value the attribute holds, and an
    attribute that is absent and one that is [None] are not told apart (the
    code does not either: it tests [edge[2] is None]). *)

From Stdlib Require Import QArith.
From stdpp Require Import gmap strings list fin_maps.

Set Warnings "-clear-no-such-hyp".

(** ** Graphs as networkx stores them *)

Definition node := nat.

(** An edge's attribute dictionary. *)
Abbreviation attrs := (gmap string Z).

(** [nodes] is the key order of [_node]/[_adj] (insertion order); [adj u] is
    the dictionary [_adj[u]] as its items in insertion order. *)
Record Graph := mkGraph {
  nodes : list node;
  adj : node → list (node * attrs)
}.

Definition empty_graph : Graph := mkGraph [] (λ _, []).

(** [G.neighbors(n)]: the keys of [_adj[n]]. *)
Definition neighbors (G : Graph) (n : node) : list node := (adj G n).*1.

(** The invariants networkx keeps on an undirected simple [Graph]: keys are
    unique, every neighbour is a node, and [_adj[u][v]] and [_adj[v][u]] are
    one shared attribute dictionary. *)
Definition graph_wf (G : Graph) : Prop :=
  NoDup (nodes G) ∧
  Forall (λ u, NoDup (neighbors G u) ∧
               Forall (λ p, p.1 ∈ nodes G ∧ (u, p.2) ∈ adj G p.1) (adj G u))
         (nodes G).

#[global] Instance graph_wf_dec G : Decision (graph_wf G).
Proof. unfold graph_wf. apply _. Defined.

(** Dictionary read and write on an insertion-ordered item list. *)
Definition dict_get {V} (k : node) (d : list (node * V)) : option V :=
  (λ r, r.2.2) <$> list_find (λ p, p.1 = k) d.

Definition dict_set {V} (k : node) (v : V) (d : list (node * V)) : list (node * V) :=
  if decide (k ∈ d.*1)
  then (λ p, if decide (p.1 = k) then (k, v) else p) <$> d
  else d ++ [(k, v)].

Definition fn_upd {V} (f : node → V) (k : node) (v : V) : node → V :=
  λ x, if decide (x = k) then v else f x.

(** [Graph.add_node] as [add_edges_from] inlines it: a new node goes to the
    end with an empty adjacency dictionary. *)
Definition add_node (G : Graph) (u : node) : Graph :=
  if decide (u ∈ nodes G) then G
  else mkGraph (nodes G ++ [u]) (fn_upd (adj G) u []).

(** One iteration of [Graph.add_edges_from]: the edge's dictionary is the
    one already stored (or a new one), updated with [dd], and is written to
    both directions. *)
Definition add_edge (G : Graph) (u v : node) (dd : attrs) : Graph :=
  let G1 := add_node (add_node G u) v in
  let datadict := dd ∪ default ∅ (dict_get v (adj G1 u)) in
  let adj1 := fn_upd (adj G1) u (dict_set v datadict (adj G1 u)) in
  let adj2 := fn_upd adj1 v (dict_set u datadict (adj1 v)) in
  mkGraph (nodes G1) adj2.

(** [G.edges] ([EdgeView.__iter__]): nodes in order, each adjacency in
    order, a neighbour already visited as a node is skipped. *)
Fixpoint edges_from (G : Graph) (seen ns : list node) : list (node * node * attrs) :=
  match ns with
  | [] => []
  | n :: ns' =>
      ((λ p, (n, p.1, p.2)) <$> filter (λ p, p.1 ∉ seen) (adj G n))
      ++ edges_from G (seen ++ [n]) ns'
  end.

Definition edges (G : Graph) : list (node * node * attrs) :=
  edges_from G [] (nodes G).

(** [G.number_of_edges()]. *)
Definition number_of_edges (G : Graph) : nat := length (edges G).

(** The tuples the two calls of [_create_persona_graph] iterate over:
    [G.edges()] yields pairs, [G.edges(data=key)] yields triples whose third
    component is [dd.get(key)], [None] when the key is absent. *)
Inductive edge_tuple :=
  | E2 (u v : node)
  | E3 (u v : node) (w : option Z).

Definition edges_nodata (G : Graph) : list edge_tuple :=
  (λ e, E2 e.1.1 e.1.2) <$> edges G.

Definition edges_data (G : Graph) (key : string) : list edge_tuple :=
  (λ e, E3 e.1.1 e.1.2 (e.2 !! key)) <$> edges G.

(** [G.subgraph(nbunch)]: the induced subgraph.  networkx iterates such a
    view in the node order of [G] or in the order of the set [nbunch],
    whichever is shorter to scan; the model takes the node order of [G].
    The order decides which cluster gets which persona id and nothing
    else. *)
Definition subgraph (G : Graph) (nbunch : list node) : Graph :=
  mkGraph (filter (λ n, n ∈ nbunch) (nodes G))
          (λ u, if decide (u ∈ nbunch)
                then filter (λ p, p.1 ∈ nbunch) (adj G u) else []).

(** [_plain_bfs]: the body of the [for v in thislevel] loop, then the
    [while nextlevel] loop.  Sets are lists in insertion order.  Every round
    of the [while] loop but the last adds a node, so [length (nodes G) + 1]
    rounds are enough ([bfs_loop_spec] below); that bound is the fuel. *)
Definition bfs_level (G : Graph) (seen thislevel : list node) : list node * list node :=
  foldl (λ st v, if decide (v ∈ st.1) then st
                 else (st.1 ++ [v], st.2 ++ neighbors G v))
        (seen, []) thislevel.

Fixpoint bfs_loop (fuel : nat) (G : Graph) (seen nextlevel : list node) : list node :=
  match nextlevel, fuel with
  | [], _ => seen
  | _, 0 => seen
  | _, S fuel' =>
      let st := bfs_level G seen nextlevel in
      bfs_loop fuel' G st.1 st.2
  end.

Definition _plain_bfs (G : Graph) (source : node) : list node :=
  bfs_loop (S (length (nodes G))) G [] [source].

(** [nx.connected_components]: [for v in G: if v not in seen: ...]. *)
Definition cc_step (G : Graph) (st : list node * list (list node)) (v : node) :=
  if decide (v ∈ st.1) then st
  else let c := _plain_bfs G v in (st.1 ++ c, st.2 ++ [c]).

Definition connected_components (G : Graph) : list (list node) :=
  (foldl (cc_step G) ([], []) (nodes G)).2.

(** The persona edges [_get_new_edge_ids] returns: a pair, or a triple with
    the dictionary [{self.weight: edge[2]}]. *)
Inductive persona_edge :=
  | PE2 (pu pv : nat)
  | PE3 (pu pv : nat) (dd : attrs).

(** [nx.from_edgelist]: [add_edges_from] on a new graph; a pair adds the
    edge with an empty update. *)
Definition add_persona_edge (G : Graph) (e : persona_edge) : Graph :=
  match e with
  | PE2 pu pv => add_edge G pu pv ∅
  | PE3 pu pv dd => add_edge G pu pv dd
  end.

Definition from_edgelist (l : list persona_edge) : Graph :=
  foldl add_persona_edge empty_graph l.


(** ** The estimator object *)

(** A strategy argument: a name, or a callable. *)
Inductive method (F : Type) :=
  | Named (name : string)
  | Callable (f : F).
Arguments Named {F} name.
Arguments Callable {F} f.

(** A local strategy returns a dictionary [{cluster id: set of node ids}],
    given as its items in iteration order; a global strategy returns a
    dictionary [{persona: community}], likewise. *)
Definition local_strategy := Graph → list (nat * list node).
Definition global_strategy := Graph → list (nat * nat).

(** The constructor's arguments, then the attributes [fit] assigns.  Only
    [partitions] and [overlapping_partitions] can be read before they are
    assigned, so only they record being unset. *)
Record EgoNetSplitter := mkEst {
  resolution : Q;
  seed : nat;
  weight : option string;
  method_local : method local_strategy;
  method_global : method global_strategy;
  graph : Graph;
  components : gmap node (gmap node nat);
  personalities : gmap node (list nat);
  index : nat;
  personality_map : gmap nat node;
  persona_graph_edges : list persona_edge;
  persona_graph : Graph;
  partitions : option (list (nat * nat));
  overlapping_partitions : option (gmap node (list nat))
}.

(** [__init__]; the attributes [fit] assigns start empty. *)
Definition init (resolution : Q) (seed : nat) (weight : option string)
    (method_local : method local_strategy)
    (method_global : method global_strategy) : EgoNetSplitter :=
  mkEst resolution seed weight method_local method_global
        empty_graph ∅ ∅ 0 ∅ [] empty_graph None None.

Definition default_estimator : EgoNetSplitter :=
  init 1%Q 42 (Some "weight") (Named "components") (Named "louvain").

Definition set_graph (g : Graph) (s : EgoNetSplitter) : EgoNetSplitter :=
  mkEst (resolution s) (seed s) (weight s) (method_local s) (method_global s)
        g (components s) (personalities s) (index s) (personality_map s)
        (persona_graph_edges s) (persona_graph s) (partitions s)
        (overlapping_partitions s).

Definition set_components (c : gmap node (gmap node nat)) (s : EgoNetSplitter) :=
  mkEst (resolution s) (seed s) (weight s) (method_local s) (method_global s)
        (graph s) c (personalities s) (index s) (personality_map s)
        (persona_graph_edges s) (persona_graph s) (partitions s)
        (overlapping_partitions s).

Definition set_personalities (p : gmap node (list nat)) (s : EgoNetSplitter) :=
  mkEst (resolution s) (seed s) (weight s) (method_local s) (method_global s)
        (graph s) (components s) p (index s) (personality_map s)
        (persona_graph_edges s) (persona_graph s) (partitions s)
        (overlapping_partitions s).

Definition set_index (i : nat) (s : EgoNetSplitter) :=
  mkEst (resolution s) (seed s) (weight s) (method_local s) (method_global s)
        (graph s) (components s) (personalities s) i (personality_map s)
        (persona_graph_edges s) (persona_graph s) (partitions s)
        (overlapping_partitions s).

Definition set_personality_map (m : gmap nat node) (s : EgoNetSplitter) :=
  mkEst (resolution s) (seed s) (weight s) (method_local s) (method_global s)
        (graph s) (components s) (personalities s) (index s) m
        (persona_graph_edges s) (persona_graph s) (partitions s)
        (overlapping_partitions s).

Definition set_persona_graph_edges (l : list persona_edge) (s : EgoNetSplitter) :=
  mkEst (resolution s) (seed s) (weight s) (method_local s) (method_global s)
        (graph s) (components s) (personalities s) (index s) (personality_map s)
        l (persona_graph s) (partitions s) (overlapping_partitions s).

Definition set_persona_graph (g : Graph) (s : EgoNetSplitter) :=
  mkEst (resolution s) (seed s) (weight s) (method_local s) (method_global s)
        (graph s) (components s) (personalities s) (index s) (personality_map s)
        (persona_graph_edges s) g (partitions s) (overlapping_partitions s).

Definition set_partitions (p : list (nat * nat)) (s : EgoNetSplitter) :=
  mkEst (resolution s) (seed s) (weight s) (method_local s) (method_global s)
        (graph s) (components s) (personalities s) (index s) (personality_map s)
        (persona_graph_edges s) (persona_graph s) (Some p)
        (overlapping_partitions s).

Definition set_overlapping_partitions (o : gmap node (list nat)) (s : EgoNetSplitter) :=
  mkEst (resolution s) (seed s) (weight s) (method_local s) (method_global s)
        (graph s) (components s) (personalities s) (index s) (personality_map s)
        (persona_graph_edges s) (persona_graph s) (partitions s) (Some o).

(** ** Exceptions and state *)

Inductive exn :=
  | ValueError
  | KeyError
  | AttributeError
  | IndexError
  | GraphCheckError.

Inductive result (A : Type) :=
  | Ok (a : A)
  | Raise (e : exn).
Arguments Ok {A} a.
Arguments Raise {A} e.

(** A method of the object: it may mutate [self] and then return or raise;
    the mutations made before a raise stay. *)
Definition M (A : Type) : Type := EgoNetSplitter → EgoNetSplitter * result A.

#[global] Instance M_ret : MRet M := λ A a s, (s, Ok a).
#[global] Instance M_bind : MBind M := λ A B f m s,
  match m s with
  | (s', Ok a) => f a s'
  | (s', Raise e) => (s', Raise e)
  end.

Definition raise {A} (e : exn) : M A := λ s, (s, Raise e).
Definition self : M EgoNetSplitter := λ s, (s, Ok s).
Definition assign (f : EgoNetSplitter → EgoNetSplitter) : M unit := λ s, (f s, Ok tt).

(** [for x in l: body(x)]. *)
Fixpoint for_each {A} (l : list A) (body : A → M unit) : M unit :=
  match l with
  | [] => mret tt
  | x :: l' => body x ;; for_each l' body
  end.

(** [[body(x) for x in l]]. *)
Fixpoint collect {A B} (l : list A) (body : A → M B) : M (list B) :=
  match l with
  | [] => mret []
  | x :: l' => y ← body x; ys ← collect l' body; mret (y :: ys)
  end.

(** A subscript [d[k]] on a dictionary. *)
Definition subscript {K V} `{Countable K} (d : gmap K V) (k : K) : M V :=
  match d !! k with
  | Some v => mret v
  | None => raise KeyError
  end.

(** [for x in l: acc = body(acc, x)], for loops that update local variables. *)
Fixpoint fold_each {A S} (l : list A) (body : S → A → M S) (acc : S) : M S :=
  match l with
  | [] => mret acc
  | x :: l' => acc' ← body acc x; fold_each l' body acc'
  end.

(** What the estimator takes from outside this file: python-louvain's
    [community.best_partition] (its result depends on the random state that
    [_set_seed] seeds, so the seed is an argument here) and the verdict of
    the base class's [_check_graph]. *)
Class External := {
  best_partition : nat → Graph → Q → string → list (nat * nat);
  check_graph : Graph → bool
}.

(** [enumerate]. *)
Definition enumerate {A} (l : list A) : list (nat * A) := imap (λ i x, (i, x)) l.

Definition edge0 (e : edge_tuple) : node :=
  match e with E2 u _ => u | E3 u _ _ => u end.
Definition edge1 (e : edge_tuple) : node :=
  match e with E2 _ v => v | E3 _ v _ => v end.
(** [edge[2]]: out of range on a pair. *)
Definition edge2 (e : edge_tuple) : M (option Z) :=
  match e with E2 _ _ => raise IndexError | E3 _ _ w => mret w end.

Section estimator.
Context `{External}.

(** [_set_seed] seeds the random generators only. *)
Definition _set_seed : M unit := mret tt.

Definition _check_graph (G : Graph) : M unit :=
  if check_graph G then mret tt else raise GraphCheckError.

(** The local strategy's answer on an ego-net: lines 35-40. *)
Definition local_clusters (method : method local_strategy)
    (ego_net_minus_ego : Graph) : M (list (nat * list node)) :=
  match method with
  | Callable f => mret (f ego_net_minus_ego)
  | Named name =>
      if decide (name = "components")
      then mret (enumerate (connected_components ego_net_minus_ego))
      else raise ValueError
  end.

(** The body of [for k, v in components.items()], on the locals
    [(new_mapping, personalities)]. *)
Definition assign_cluster (acc : gmap node nat * list nat)
    (kv : nat * list node) : M (gmap node nat * list nat) :=
  s ← self;
  let personalities := acc.2 ++ [index s] in
  let new_mapping := foldl (λ m other_node, <[other_node := index s]> m) acc.1 kv.2 in
  assign (λ s, set_index (index s + 1) s);;
  mret (new_mapping, personalities).

Definition _create_egonet (n : node) (method : method local_strategy) : M unit :=
  s ← self;
  let ego_net_minus_ego := subgraph (graph s) (neighbors (graph s) n) in
  comps ← local_clusters method ego_net_minus_ego;
  acc ← fold_each comps assign_cluster (∅, []);
  assign (λ s, set_components (<[n := acc.1]> (components s)) s);;
  assign (λ s, set_personalities (<[n := acc.2]> (personalities s)) s).

Definition _create_egonets : M unit :=
  assign (set_components ∅);;
  assign (set_personalities ∅);;
  assign (set_index 0);;
  s ← self;
  for_each (nodes (graph s))
           (λ n, s ← self; _create_egonet n (method_local s)).

(** [{p: n for n in self.graph.nodes() for p in self.personalities[n]}]. *)
Definition _map_personalities : M unit :=
  s ← self;
  m ← fold_each (nodes (graph s))
        (λ m n, ps ← subscript (personalities s) n;
                mret (foldl (λ m p, <[p := n]> m) m ps))
        ∅;
  assign (set_personality_map m).

(** [self.components[a][b]]. *)
Definition component_of (a b : node) : M nat :=
  s ← self;
  m ← subscript (components s) a;
  subscript m b.

Definition _get_new_edge_ids (edge : edge_tuple) : M persona_edge :=
  s ← self;
  match weight s with
  | None =>
      pu ← component_of (edge0 edge) (edge1 edge);
      pv ← component_of (edge1 edge) (edge0 edge);
      mret (PE2 pu pv)
  | Some key =>
      w ← edge2 edge;
      match w with
      | None =>
          pu ← component_of (edge0 edge) (edge1 edge);
          pv ← component_of (edge1 edge) (edge0 edge);
          mret (PE2 pu pv)
      | Some w =>
          pu ← component_of (edge0 edge) (edge1 edge);
          pv ← component_of (edge1 edge) (edge0 edge);
          mret (PE3 pu pv {[ key := w ]})
      end
  end.

Definition _create_persona_graph : M unit :=
  s ← self;
  l ← match weight s with
      | None => collect (edges_nodata (graph s)) _get_new_edge_ids
      | Some key => collect (edges_data (graph s) key) _get_new_edge_ids
      end;
  assign (set_persona_graph_edges l);;
  s ← self;
  assign (set_persona_graph (from_edgelist (persona_graph_edges s))).

(** Reading [self.partitions] and [self.overlapping_partitions]. *)
Definition get_partitions : M (list (nat * nat)) :=
  s ← self;
  match partitions s with Some p => mret p | None => raise AttributeError end.

Definition get_overlapping_partitions : M (gmap node (list nat)) :=
  s ← self;
  match overlapping_partitions s with
  | Some o => mret o
  | None => raise AttributeError
  end.

(** The body of [for node, membership in self.partitions.items()]. *)
Definition append_membership (item : nat * nat) : M unit :=
  o ← get_overlapping_partitions;
  s ← self;
  owner ← subscript (personality_map s) item.1;
  l ← subscript o owner;
  assign (set_overlapping_partitions (<[owner := l ++ [item.2]]> o)).

(** Without a weight key [best_partition] is called without [weight], whose
    default in python-louvain is ['weight'].  A name other than ['louvain']
    falls through both tests and assigns nothing. *)
Definition _create_partitions (method : method global_strategy) : M unit :=
  s ← self;
  match method with
  | Callable f => assign (set_partitions (f (persona_graph s)))
  | Named name =>
      if decide (name = "louvain") then
        match weight s with
        | None =>
            assign (set_partitions
                      (best_partition (seed s) (persona_graph s) (resolution s) "weight"))
        | Some key =>
            assign (set_partitions
                      (best_partition (seed s) (persona_graph s) (resolution s) key))
        end
      else mret tt
  end;;
  assign (set_overlapping_partitions
            (foldl (λ d n, <[n := []]> d) ∅ (nodes (graph s))));;
  parts ← get_partitions;
  for_each parts append_membership.

Definition fit (G : Graph) : M unit :=
  _set_seed;;
  _check_graph G;;
  assign (set_graph G);;
  _create_egonets;;
  _map_personalities;;
  _create_persona_graph;;
  s ← self;
  _create_partitions (method_global s).

Definition get_memberships : M (gmap node (list nat)) :=
  get_overlapping_partitions.

End estimator.

(** ** Pure readings of the loops *)

(** The method a strategy argument of [_create_egonet] resolves to. *)
Definition resolve_local (method : method local_strategy) : option local_strategy :=
  match method with
  | Callable f => Some f
  | Named name =>
      if decide (name = "components")
      then Some (λ G, enumerate (connected_components G))
      else None
  end.

(** The clusters a strategy produces for the ego-net of [n]. *)
Definition clusters_of (f : local_strategy) (G : Graph) (n : node) : list (nat * list node) :=
  f (subgraph G (neighbors G n)).

(** [new_mapping] after the clusters [comps] were numbered from [idx]. *)
Fixpoint cluster_map (idx : nat) (comps : list (nat * list node))
    (m : gmap node nat) : gmap node nat :=
  match comps with
  | [] => m
  | kv :: comps' =>
      cluster_map (S idx) comps' (foldl (λ m other_node, <[other_node := idx]> m) m kv.2)
  end.

(** One round of the loop of [_create_egonets] on
    [(components, personalities, index)]. *)
Definition egonet_step (f : local_strategy) (G : Graph)
    (st : gmap node (gmap node nat) * gmap node (list nat) * nat) (n : node) :=
  let cl := clusters_of f G n in
  (<[n := cluster_map st.2 cl ∅]> st.1.1, <[n := seq st.2 (length cl)]> st.1.2,
   st.2 + length cl).

Definition egonets (f : local_strategy) (G : Graph) (ns : list node) :=
  foldl (egonet_step f G) (∅, ∅, 0) ns.

(** The first persona id of node [n] when the nodes [ns] are processed in
    order. *)
Fixpoint persona_base (f : local_strategy) (G : Graph) (ns : list node) (n : node) : nat :=
  match ns with
  | [] => 0
  | m :: ns' =>
      if decide (m = n) then 0
      else length (clusters_of f G m) + persona_base f G ns' n
  end.

(** The number of personas allocated for the nodes [ns]. *)
Definition total_personas (f : local_strategy) (G : Graph) (ns : list node) : nat :=
  sum_list ((λ n, length (clusters_of f G n)) <$> ns).

(** The dictionary comprehension of [_map_personalities]. *)
Definition personality_fold (pers : gmap node (list nat)) (ns : list node) : gmap nat node :=
  foldl (λ m n, foldl (λ m p, <[p := n]> m) m (default [] (pers !! n))) ∅ ns.

(** [self.components[a][b]] as a partial function. *)
Definition lookup_component (c : gmap node (gmap node nat)) (a b : node) : option nat :=
  c !! a ≫= λ m, m !! b.

(** The persona edge of one original edge, [None] when a subscript misses. *)
Definition persona_edge_for (weight : option string) (c : gmap node (gmap node nat))
    (e : node * node * attrs) : option persona_edge :=
  pu ← lookup_component c e.1.1 e.1.2;
  pv ← lookup_component c e.1.2 e.1.1;
  Some match weight with
       | None => PE2 pu pv
       | Some key =>
           match e.2 !! key with
           | None => PE2 pu pv
           | Some w => PE3 pu pv {[ key := w ]}
           end
       end.

Definition persona_edges (weight : option string) (c : gmap node (gmap node nat))
    (es : list (node * node * attrs)) : option (list persona_edge) :=
  mapM (persona_edge_for weight c) es.

(** [{node: [] for node in self.graph.nodes()}]. *)
Definition empty_memberships (G : Graph) : gmap node (list nat) :=
  foldl (λ d n, <[n := []]> d) ∅ (nodes G).

(** The loop over [self.partitions.items()], [None] when a subscript misses. *)
Fixpoint aggregate (pm : gmap nat node) (o : gmap node (list nat))
    (parts : list (nat * nat)) : option (gmap node (list nat)) :=
  match parts with
  | [] => Some o
  | item :: parts' =>
      owner ← pm !! item.1;
      l ← o !! owner;
      aggregate pm (<[owner := l ++ [item.2]]> o) parts'
  end.

(** ** States, predicates and contracts used in the statements *)

(** The partition [_create_partitions] assigns, when it assigns one. *)
Definition resolve_global `{External} (s : EgoNetSplitter) : option (list (nat * nat)) :=
  match method_global s with
  | Callable g => Some (g (persona_graph s))
  | Named name =>
      if decide (name = "louvain")
      then Some (best_partition (seed s) (persona_graph s) (resolution s)
                                (default "weight" (weight s)))
      else None
  end.

(** The object after [_create_egonets] and [_map_personalities]. *)
Definition indexed (f : local_strategy) (G : Graph) (s : EgoNetSplitter) : EgoNetSplitter :=
  let st := egonets f G (nodes G) in
  set_personality_map (personality_fold st.1.2 (nodes G))
    (set_index st.2 (set_personalities st.1.2 (set_components st.1.1 (set_graph G s)))).

(** The object after [_create_persona_graph]. *)
Definition with_persona_graph (l : list persona_edge) (s : EgoNetSplitter) : EgoNetSplitter :=
  set_persona_graph (from_edgelist l) (set_persona_graph_edges l s).

(** What a completed [fit] leaves in the object. *)
Record fitted `{External} (s : EgoNetSplitter) (G : Graph) (s' : EgoNetSplitter)
    (f : local_strategy) (parts : list (nat * nat)) : Prop := {
  fitted_local : resolve_local (method_local s) = Some f ∨ nodes G = [];
  fitted_check : check_graph G = true;
  fitted_graph : graph s' = G;
  fitted_weight : weight s' = weight s;
  fitted_components : components s' = (egonets f G (nodes G)).1.1;
  fitted_personalities : personalities s' = (egonets f G (nodes G)).1.2;
  fitted_index : index s' = (egonets f G (nodes G)).2;
  fitted_personality_map :
    personality_map s' = personality_fold (personalities s') (nodes G);
  fitted_edges :
    persona_edges (weight s) (components s') (edges G) = Some (persona_graph_edges s');
  fitted_persona_graph : persona_graph s' = from_edgelist (persona_graph_edges s');
  fitted_partitions : partitions s' = Some parts;
  fitted_global :
    resolve_global (with_persona_graph (persona_graph_edges s') (indexed f G s))
      = Some parts ∨
    (resolve_global (with_persona_graph (persona_graph_edges s') (indexed f G s))
       = None ∧ partitions s = Some parts);
  fitted_memberships :
    ∃ o, aggregate (personality_map s') (empty_memberships G) parts = Some o ∧
         overlapping_partitions s' = Some o
}.

(** The personas of a node, [self.personalities[n]]. *)
Definition personas_of (s : EgoNetSplitter) (n : node) : list nat :=
  default [] (personalities s !! n).

(** An undirected pair, smaller endpoint first. *)
Definition norm_pair (p : nat * nat) : nat * nat :=
  if decide (p.1 ≤ p.2) then p else (p.2, p.1).

(** [u] is a node and [_adj[u][v]] is the dictionary [d]. *)
Definition linked (G : Graph) (u v : node) (d : attrs) : Prop :=
  u ∈ nodes G ∧ (v, d) ∈ adj G u.

(** [G[u][v]] where it exists. *)
Definition edge_data (G : Graph) (u v : node) : option attrs :=
  if decide (u ∈ nodes G) then dict_get v (adj G u) else None.

(** The endpoints and the attribute update of a persona edge tuple. *)
Definition ends (e : persona_edge) : nat * nat :=
  match e with PE2 a b => (a, b) | PE3 a b _ => (a, b) end.

Definition edge_attrs (e : persona_edge) : attrs :=
  match e with PE2 _ _ => ∅ | PE3 _ _ dd => dd end.

(** The attribute dictionary [_get_new_edge_ids] attaches for an edge with
    the dictionary [d]. *)
Definition emitted_attrs (weight : option string) (d : attrs) : attrs :=
  match weight with
  | None => ∅
  | Some key =>
      match d !! key with
      | None => ∅
      | Some w => {[ key := w ]}
      end
  end.

(** The two personas an edge maps to, [None] when a subscript misses. *)
Definition persona_pair (c : gmap node (gmap node nat)) (u v : node) : option (nat * nat) :=
  pu ← lookup_component c u v; pv ← lookup_component c v u; Some (pu, pv).

(** The tuples [_create_persona_graph] passes to [_get_new_edge_ids]. *)
Definition edge_tuples (weight : option string) (G : Graph) : list edge_tuple :=
  match weight with
  | None => edges_nodata G
  | Some key => edges_data G key
  end.

(** Reachability along adjacencies. *)
Definition reach (H : Graph) : relation node := rtc (λ a b, b ∈ neighbors H a).

(** A set of nodes that holds the neighbours of its members. *)
Definition closed_under (H : Graph) (S : list node) : Prop :=
  ∀ v x, v ∈ S → x ∈ neighbors H v → x ∈ S.

(** What the [while] loop of [_plain_bfs] maintains. *)
Definition bfs_inv (H : Graph) (src : node) (seen level : list node) : Prop :=
  NoDup seen ∧
  (∀ x, x ∈ seen ∨ x ∈ level → x ∈ nodes H ∧ reach H src x) ∧
  (∀ v x, v ∈ seen → x ∈ neighbors H v → x ∈ seen ∨ x ∈ level).

(** What the loop of [connected_components] maintains. *)
Definition cc_inv (H : Graph) (st : list node * list (list node)) : Prop :=
  st.1 = concat st.2 ∧ NoDup st.1 ∧ closed_under H st.1 ∧
  (∀ x, x ∈ st.1 → x ∈ nodes H) ∧ Forall (λ c, c ≠ []) st.2.

(** The contract of a local strategy on the ego-net of [n]: its clusters
    are non-empty sets of neighbours of [n], every neighbour is in one of
    them, and no node is in two. *)
Definition local_contract (G : Graph) (n : node) (cl : list (nat * list node)) : Prop :=
  (∀ kv, kv ∈ cl → kv.2 ≠ []) ∧
  (∀ kv v, kv ∈ cl → v ∈ kv.2 → v ∈ neighbors G n) ∧
  (∀ v, v ∈ neighbors G n → ∃ kv, kv ∈ cl ∧ v ∈ kv.2) ∧
  (∀ i j kv kv' v, cl !! i = Some kv → cl !! j = Some kv' →
                   v ∈ kv.2 → v ∈ kv'.2 → i = j).

(** The built-in strategy ['components']. *)
Definition components_strategy : local_strategy :=
  λ G, enumerate (connected_components G).

(** What the claims assume of the local strategy at a node: it is the
    built-in ['components'], or a callable whose clusters for the node's
    ego-net meet the contract. *)
Definition local_ok (s : EgoNetSplitter) (G : Graph) (n : node) : Prop :=
  method_local s = Named "components" ∨
  ∃ g, method_local s = Callable g ∧ local_contract G n (clusters_of g G n).

(** Every neighbour of every node is in some cluster of that node's
    ego-net. *)
Definition covers (g : local_strategy) (G : Graph) : Prop :=
  Forall (λ u, Forall (λ v, Exists (λ kv, v ∈ kv.2) (clusters_of g G u))
                      (neighbors G u))
         (nodes G).

#[global] Instance covers_dec g G : Decision (covers g G).
Proof. unfold covers. apply _. Defined.

(** Two objects built with the same constructor arguments. *)
Definition same_config (s s0 : EgoNetSplitter) : Prop :=
  resolution s = resolution s0 ∧ seed s = seed s0 ∧ weight s = weight s0 ∧
  method_local s = method_local s0 ∧ method_global s = method_global s0.

(** A global strategy [_create_partitions] acts on: a callable, or the name
    ['louvain']. *)
Definition recognised_global (m : method global_strategy) : Prop :=
  match m with
  | Callable _ => True
  | Named name => name = "louvain"
  end.


(** ** Concrete surroundings for the examples *)

(** Modelled from the spec: the base class's [_check_graph] is not among
    the sources; the spec's [InputGraphInvalid] refuses an empty graph and a
    graph with a self-loop. *)
Definition spec_check_graph (G : Graph) : bool :=
  bool_decide (nodes G ≠ [] ∧ Forall (λ u, u ∉ neighbors G u) (nodes G)).

(** A stand-in for the Louvain optimiser: every persona of the persona
    graph is a community of its own, listed in the graph's node order. *)
Definition singleton_partition (seed : nat) (PG : Graph) (resolution : Q)
    (weight : string) : list (nat * nat) :=
  (λ p, (p, p)) <$> nodes PG.

Definition example_external : External :=
  {| best_partition := singleton_partition; check_graph := spec_check_graph |}.

(** A path 0 - 1 - 2 whose first edge has weight 5 and whose second edge has
    no weight attribute. *)
Definition weighted_path : Graph :=
  from_edgelist [PE3 0 1 {[ "weight" := 5%Z ]}; PE2 1 2].

(** A star with centre 0 and leaves 1 and 2: [add_nodes_from([0, 1, 2])],
    then the edges 0 - 1 and 0 - 2. *)
Definition star_graph : Graph :=
  mkGraph [0; 1; 2]
          (λ u, match u with
                | 0 => [(1, ∅); (2, ∅)]
                | 1 => [(0, ∅)]
                | 2 => [(0, ∅)]
                | _ => []
                end).

(** The same star with one more node, 3, that has no neighbour. *)
Definition star_with_isolated : Graph :=
  mkGraph [0; 1; 2; 3] (adj star_graph).

Definition single_edge : Graph := from_edgelist [PE2 0 1].

(** A global strategy that lists the personas of [star_graph] in another
    order than they were created. *)
Definition shuffled_partition : global_strategy :=
  λ _, [(1, 1); (0, 0); (2, 0); (3, 1)].

Definition shuffled_estimator : EgoNetSplitter :=
  init 1%Q 42 (Some "weight") (Named "components") (Callable shuffled_partition).

(** A strategy that breaks the contract twice: it adds the foreign node 7
    to the first cluster and repeats every neighbour in a second one. *)
Definition overlapping_strategy : local_strategy :=
  λ H, [(0, nodes H ++ [7]); (1, nodes H)].

(** A strategy that leaves every neighbour out. *)
Definition empty_strategy : local_strategy := λ _, [].

(** A global strategy whose result names 9, which is no persona of
    [star_graph], and leaves the personas 1, 2 and 3 out. *)
Definition foreign_key_partition : global_strategy := λ _, [(0, 0); (9, 1)].


(** * Proofs *)

(** ** Running the methods *)

Ltac munfold :=
  unfold mbind, M_bind, mret, M_ret, self, assign, raise, subscript in *.

Section runs.
Context `{External}.

Lemma set_index_twice i j s : set_index i (set_index j s) = set_index i s.
Proof. by destruct s. Qed.

Lemma fold_assign_cluster comps acc s :
  fold_each comps assign_cluster acc s =
  (set_index (index s + length comps) s,
   Ok (cluster_map (index s) comps acc.1, acc.2 ++ seq (index s) (length comps))).
Proof.
  revert acc s. induction comps as [|kv comps IH]; intros acc s.
  - simpl. munfold. destruct s, acc; simpl. rewrite Nat.add_0_r, app_nil_r. done.
  - simpl. unfold assign_cluster at 1. munfold. simpl.
    rewrite IH. simpl. rewrite set_index_twice.
    destruct s; simpl. rewrite Nat.add_1_r. rewrite <- app_assoc. simpl.
    repeat f_equal; lia.
Qed.

Lemma local_clusters_resolved method f G s :
  resolve_local method = Some f →
  local_clusters method G s = (s, Ok (f G)).
Proof.
  destruct method as [name|g]; simpl.
  - case_decide; [|done]. intros [= <-]. done.
  - intros [= <-]. done.
Qed.

Lemma local_clusters_unresolved method G s :
  resolve_local method = None →
  local_clusters method G s = (s, Raise ValueError).
Proof.
  destruct method as [name|g]; simpl; [|done].
  case_decide; done.
Qed.

Lemma create_egonet_run n method f s :
  resolve_local method = Some f →
  _create_egonet n method s =
  (let st := egonet_step f (graph s) (components s, personalities s, index s) n in
   set_index st.2 (set_personalities st.1.2 (set_components st.1.1 s)), Ok tt).
Proof.
  intros Hf. unfold _create_egonet. munfold.
  rewrite (local_clusters_resolved _ f) by done.
  rewrite fold_assign_cluster. simpl. destruct s; simpl. done.
Qed.

Lemma create_egonet_raise n method s :
  resolve_local method = None →
  _create_egonet n method s = (s, Raise ValueError).
Proof.
  intros Hf. unfold _create_egonet. munfold.
  by rewrite local_clusters_unresolved.
Qed.

Lemma for_each_egonet f ns s :
  resolve_local (method_local s) = Some f →
  for_each ns (λ n, s ← self; _create_egonet n (method_local s)) s =
  (let st := foldl (egonet_step f (graph s)) (components s, personalities s, index s) ns in
   set_index st.2 (set_personalities st.1.2 (set_components st.1.1 s)), Ok tt).
Proof.
  revert s. induction ns as [|n ns IH]; intros s Hf.
  - simpl. destruct s; done.
  - simpl. munfold. rewrite (create_egonet_run _ _ f) by done.
    cbv zeta. munfold. rewrite IH by (destruct s; done).
    destruct s; done.
Qed.

Lemma create_egonets_run f s :
  resolve_local (method_local s) = Some f →
  _create_egonets s =
  (let st := egonets f (graph s) (nodes (graph s)) in
   set_index st.2 (set_personalities st.1.2 (set_components st.1.1 s)), Ok tt).
Proof.
  intros Hf. unfold _create_egonets. munfold.
  rewrite (for_each_egonet f) by (destruct s; done).
  destruct s; done.
Qed.

Lemma create_egonets_raise s :
  resolve_local (method_local s) = None →
  nodes (graph s) ≠ [] →
  _create_egonets s =
  (set_index 0 (set_personalities ∅ (set_components ∅ s)), Raise ValueError).
Proof.
  intros Hf Hne. unfold _create_egonets. munfold.
  destruct (nodes (graph s)) as [|n ns] eqn:Hn; [done|].
  replace (nodes (graph (set_index 0 (set_personalities ∅ (set_components ∅ s)))))
    with (n :: ns) by (destruct s; done).
  simpl. munfold. rewrite create_egonet_raise by (destruct s; done). done.
Qed.

Lemma create_egonets_empty s :
  nodes (graph s) = [] →
  _create_egonets s =
  (set_index 0 (set_personalities ∅ (set_components ∅ s)), Ok tt).
Proof.
  intros Hn. unfold _create_egonets. munfold.
  replace (nodes (graph (set_index 0 (set_personalities ∅ (set_components ∅ s)))))
    with (@nil node) by (destruct s; done).
  done.
Qed.

Lemma map_personalities_fold ns (m : gmap nat node) s :
  Forall (λ n, is_Some (personalities s !! n)) ns →
  fold_each ns
    (λ m n, ps ← subscript (personalities s) n;
            mret (foldl (λ m p, <[p := n]> m) m ps)) m s =
  (s, Ok (foldl (λ m n, foldl (λ m p, <[p := n]> m) m
                          (default [] (personalities s !! n))) m ns)).
Proof.
  revert m. induction ns as [|n ns IH]; intros m Hall; [done|].
  apply Forall_cons in Hall as [[ps Hps] Hall].
  simpl. munfold. rewrite Hps. simpl. by rewrite IH.
Qed.

Lemma map_personalities_run s :
  Forall (λ n, is_Some (personalities s !! n)) (nodes (graph s)) →
  _map_personalities s =
  (set_personality_map (personality_fold (personalities s) (nodes (graph s))) s, Ok tt).
Proof.
  intros Hall. unfold _map_personalities.
  unfold mbind at 1. unfold M_bind at 1. unfold self at 1.
  unfold mbind at 1. unfold M_bind at 1.
  by rewrite map_personalities_fold.
Qed.

Lemma component_of_run a b s :
  component_of a b s =
  (s, match lookup_component (components s) a b with
      | Some p => Ok p
      | None => Raise KeyError
      end).
Proof.
  unfold component_of, lookup_component. munfold.
  destruct (components s !! a) as [m|]; simpl; [|done].
  by destruct (m !! b).
Qed.

Lemma get_new_edge_ids_nodata e s :
  weight s = None →
  _get_new_edge_ids (E2 e.1.1 e.1.2) s =
  (s, match persona_edge_for None (components s) e with
      | Some pe => Ok pe
      | None => Raise KeyError
      end).
Proof.
  intros Hw. unfold _get_new_edge_ids, persona_edge_for. munfold.
  rewrite Hw. simpl. rewrite component_of_run.
  destruct (lookup_component _ e.1.1 e.1.2); simpl; [|done].
  rewrite component_of_run.
  by destruct (lookup_component _ e.1.2 e.1.1).
Qed.

Lemma get_new_edge_ids_data key e s :
  weight s = Some key →
  _get_new_edge_ids (E3 e.1.1 e.1.2 (e.2 !! key)) s =
  (s, match persona_edge_for (Some key) (components s) e with
      | Some pe => Ok pe
      | None => Raise KeyError
      end).
Proof.
  intros Hw. unfold _get_new_edge_ids, persona_edge_for. munfold.
  rewrite Hw. simpl.
  destruct (e.2 !! key) as [w|]; simpl; rewrite component_of_run;
    (destruct (lookup_component _ e.1.1 e.1.2); simpl; [|done]);
    rewrite component_of_run;
    by destruct (lookup_component _ e.1.2 e.1.1).
Qed.

Lemma collect_edge_ids s (mk : node * node * attrs → edge_tuple) es :
  (∀ e, _get_new_edge_ids (mk e) s =
        (s, match persona_edge_for (weight s) (components s) e with
            | Some pe => Ok pe
            | None => Raise KeyError
            end)) →
  collect (mk <$> es) _get_new_edge_ids s =
  (s, match persona_edges (weight s) (components s) es with
      | Some l => Ok l
      | None => Raise KeyError
      end).
Proof.
  intros Hmk. unfold persona_edges.
  induction es as [|e es IH]; [done|].
  rewrite fmap_cons. cbn [collect mapM]. munfold. rewrite Hmk.
  destruct (persona_edge_for _ _ e) as [pe|]; simpl; [|done].
  rewrite IH. by destruct (mapM _ es).
Qed.

Lemma create_persona_graph_run s :
  _create_persona_graph s =
  match persona_edges (weight s) (components s) (edges (graph s)) with
  | Some l => (set_persona_graph (from_edgelist l) (set_persona_graph_edges l s), Ok tt)
  | None => (s, Raise KeyError)
  end.
Proof.
  unfold _create_persona_graph. munfold.
  destruct (weight s) as [key|] eqn:Hw.
  - unfold edges_data.
    rewrite (collect_edge_ids s (λ e, E3 e.1.1 e.1.2 (e.2 !! key))), Hw.
    + by destruct (persona_edges _ _ _).
    + intros e. rewrite Hw. by apply get_new_edge_ids_data.
  - unfold edges_nodata.
    rewrite (collect_edge_ids s (λ e, E2 e.1.1 e.1.2)), Hw.
    + by destruct (persona_edges _ _ _).
    + intros e. rewrite Hw. by apply get_new_edge_ids_nodata.
Qed.

Lemma append_membership_run item o s :
  overlapping_partitions s = Some o →
  append_membership item s =
  match personality_map s !! item.1 ≫= λ owner, (owner,.) <$> o !! owner with
  | Some ol =>
      (set_overlapping_partitions (<[ol.1 := ol.2 ++ [item.2]]> o) s, Ok tt)
  | None => (s, Raise KeyError)
  end.
Proof.
  intros Ho. unfold append_membership, get_overlapping_partitions. munfold.
  rewrite Ho.
  destruct (personality_map s !! item.1) as [owner|]; simpl; [|done].
  by destruct (o !! owner) as [l|].
Qed.

Lemma append_memberships_run parts o s :
  overlapping_partitions s = Some o →
  match aggregate (personality_map s) o parts with
  | Some o' =>
      for_each parts append_membership s = (set_overlapping_partitions o' s, Ok tt)
  | None =>
      ∃ s', for_each parts append_membership s = (s', Raise KeyError) ∧
            is_Some (overlapping_partitions s')
  end.
Proof.
  revert o s. induction parts as [|item parts IH]; intros o s Ho.
  - simpl. munfold. destruct s; simpl in *. by subst.
  - simpl. munfold. rewrite (append_membership_run _ o) by done.
    destruct (personality_map s !! item.1) as [owner|]; simpl; [|by eauto].
    destruct (o !! owner) as [l|]; simpl; [|by eauto].
    specialize (IH (<[owner := l ++ [item.2]]> o)
                   (set_overlapping_partitions (<[owner := l ++ [item.2]]> o) s)).
    replace (personality_map (set_overlapping_partitions (<[owner := l ++ [item.2]]> o) s))
      with (personality_map s) in IH by (by destruct s).
    destruct (aggregate _ _ parts) as [o'|].
    + rewrite IH by (by destruct s). by destruct s.
    + apply IH. by destruct s.
Qed.

End runs.

(** ** Persona allocation *)

Section allocation.
Variables (f : local_strategy) (G : Graph).

Lemma total_personas_cons m ns :
  total_personas f G (m :: ns) = length (clusters_of f G m) + total_personas f G ns.
Proof. done. Qed.

Lemma egonets_from ns c0 p0 i0 :
  NoDup ns →
  let st := foldl (egonet_step f G) (c0, p0, i0) ns in
  st.2 = i0 + total_personas f G ns ∧
  (∀ n, n ∈ ns →
     st.1.1 !! n = Some (cluster_map (i0 + persona_base f G ns n) (clusters_of f G n) ∅) ∧
     st.1.2 !! n = Some (seq (i0 + persona_base f G ns n) (length (clusters_of f G n)))) ∧
  (∀ n, n ∉ ns → st.1.1 !! n = c0 !! n ∧ st.1.2 !! n = p0 !! n).
Proof.
  revert c0 p0 i0. induction ns as [|m ns IH]; intros c0 p0 i0 Hnd; simpl.
  - unfold total_personas. simpl. split_and!; [lia| |done].
    intros n Hn. by apply elem_of_nil in Hn.
  - apply NoDup_cons in Hnd as [Hm Hnd].
    destruct (IH (<[m := cluster_map i0 (clusters_of f G m) ∅]> c0)
                 (<[m := seq i0 (length (clusters_of f G m))]> p0)
                 (i0 + length (clusters_of f G m)) Hnd) as (Hi & Hin & Hout).
    unfold egonet_step at 2 4 6 8 10. simpl. split_and!.
    + rewrite Hi, total_personas_cons. lia.
    + intros n [->|Hn]%elem_of_cons.
      * destruct (Hout m Hm) as [Hc Hp]. rewrite Hc, Hp, !lookup_insert_eq.
        rewrite decide_True by done. by rewrite Nat.add_0_r.
      * destruct (Hin n Hn) as [Hc Hp]. rewrite Hc, Hp.
        rewrite decide_False by (intros ->; done).
        by rewrite Nat.add_assoc.
    + intros n [Hnm Hn]%not_elem_of_cons.
      destruct (Hout n Hn) as [Hc Hp]. rewrite Hc, Hp.
      by rewrite !lookup_insert_ne.
Qed.

Lemma egonets_index ns :
  NoDup ns → (egonets f G ns).2 = total_personas f G ns.
Proof.
  intros Hnd. unfold egonets.
  by destruct (egonets_from ns ∅ ∅ 0 Hnd) as (-> & _).
Qed.

Lemma egonets_personalities ns n :
  NoDup ns → n ∈ ns →
  (egonets f G ns).1.2 !! n =
  Some (seq (persona_base f G ns n) (length (clusters_of f G n))).
Proof.
  intros Hnd Hn. unfold egonets. destruct (egonets_from ns ∅ ∅ 0 Hnd) as (_ & Hin & _).
  by destruct (Hin n Hn) as [_ ->].
Qed.

Lemma egonets_components ns n :
  NoDup ns → n ∈ ns →
  (egonets f G ns).1.1 !! n =
  Some (cluster_map (persona_base f G ns n) (clusters_of f G n) ∅).
Proof.
  intros Hnd Hn. unfold egonets. destruct (egonets_from ns ∅ ∅ 0 Hnd) as (_ & Hin & _).
  by destruct (Hin n Hn) as [-> _].
Qed.

Lemma egonets_outside ns n :
  NoDup ns → n ∉ ns →
  (egonets f G ns).1.1 !! n = None ∧ (egonets f G ns).1.2 !! n = None.
Proof.
  intros Hnd Hn. unfold egonets. destruct (egonets_from ns ∅ ∅ 0 Hnd) as (_ & _ & Hout).
  destruct (Hout n Hn) as [-> ->]. by rewrite !lookup_empty.
Qed.

(** The personas of the nodes, in node order, are [0, 1, ...] without a
    gap or a repeat. *)
Lemma persona_ranges_from ns i0 :
  NoDup ns →
  concat ((λ n, seq (i0 + persona_base f G ns n) (length (clusters_of f G n))) <$> ns)
  = seq i0 (total_personas f G ns).
Proof.
  revert i0. induction ns as [|m ns IH]; intros i0 Hnd; [done|].
  apply NoDup_cons in Hnd as [Hm Hnd].
  rewrite total_personas_cons, fmap_cons. cbn [concat persona_base].
  rewrite decide_True by done.
  rewrite Nat.add_0_r, seq_app. f_equal.
  rewrite <- (IH (i0 + length (clusters_of f G m))) by done.
  f_equal. apply list_fmap_ext. intros i n Hn.
  rewrite decide_False; [by rewrite Nat.add_assoc|].
  intros ->. apply Hm. by eapply list_elem_of_lookup_2.
Qed.

Lemma persona_ranges ns :
  NoDup ns →
  concat ((λ n, default [] ((egonets f G ns).1.2 !! n)) <$> ns)
  = seq 0 (total_personas f G ns).
Proof.
  intros Hnd. rewrite <- (persona_ranges_from ns 0 Hnd). f_equal.
  apply list_fmap_ext. intros i n Hn.
  rewrite egonets_personalities; [done|done|by eapply list_elem_of_lookup_2].
Qed.

End allocation.

(** ** The whole of [fit] *)

Section fit_runs.
Context `{External}.

Lemma create_partitions_run s :
  _create_partitions (method_global s) s =
  let s1 := match resolve_global s with
            | Some p => set_partitions p s
            | None => s
            end in
  let s2 := set_overlapping_partitions (empty_memberships (graph s)) s1 in
  match partitions s1 with
  | None => (s2, Raise AttributeError)
  | Some parts => for_each parts append_membership s2
  end.
Proof.
  unfold _create_partitions, resolve_global, get_partitions, empty_memberships.
  munfold. destruct (method_global s) as [name|g].
  - case_decide.
    + destruct (weight s); destruct s; done.
    + simpl. destruct (partitions s) eqn:Hp; destruct s; simpl in *; by subst.
  - destruct s; done.
Qed.

Lemma egonets_is_Some f G n :
  NoDup (nodes G) → n ∈ nodes G →
  is_Some ((egonets f G (nodes G)).1.2 !! n).
Proof. intros Hnd Hn. rewrite egonets_personalities by done. eauto. Qed.

(** [fit] up to the persona graph, for a strategy that resolves. *)
Lemma fit_run G s f :
  check_graph G = true →
  NoDup (nodes G) →
  resolve_local (method_local s) = Some f ∨ nodes G = [] →
  fit G s =
  match persona_edges (weight s) (egonets f G (nodes G)).1.1 (edges G) with
  | None => (indexed f G s, Raise KeyError)
  | Some l =>
      _create_partitions (method_global s) (with_persona_graph l (indexed f G s))
  end.
Proof.
  intros Hck Hnd Hf. unfold fit, _set_seed, _check_graph. rewrite Hck. munfold.
  assert (_create_egonets (set_graph G s) =
          (let st := egonets f G (nodes G) in
           set_index st.2 (set_personalities st.1.2
             (set_components st.1.1 (set_graph G s))), Ok tt)) as ->.
  { destruct Hf as [Hf|Hn].
    - rewrite (create_egonets_run f) by (by destruct s). by destruct s.
    - rewrite create_egonets_empty by (by destruct s). rewrite Hn. by destruct s. }
  cbv zeta. rewrite map_personalities_run.
  2:{ replace (graph _) with G by (by destruct s).
      replace (personalities _) with (egonets f G (nodes G)).1.2 by (by destruct s).
      apply Forall_forall. intros n Hn. by apply egonets_is_Some. }
  rewrite create_persona_graph_run.
  replace (weight _) with (weight s) by (by destruct s).
  replace (components _) with (egonets f G (nodes G)).1.1 by (by destruct s).
  replace (graph _) with G by (by destruct s).
  destruct (persona_edges _ _ _) as [l|]; destruct s; done.
Qed.

Lemma fit_unresolved G s :
  check_graph G = true →
  resolve_local (method_local s) = None →
  nodes G ≠ [] →
  fit G s =
  (set_index 0 (set_personalities ∅ (set_components ∅ (set_graph G s))),
   Raise ValueError).
Proof.
  intros Hck Hf Hn. unfold fit, _set_seed, _check_graph. rewrite Hck. munfold.
  rewrite create_egonets_raise; [done|by destruct s|by destruct s].
Qed.

Lemma fit_rejected G s :
  check_graph G = false → fit G s = (s, Raise GraphCheckError).
Proof.
  intros Hck. unfold fit, _set_seed, _check_graph. rewrite Hck. by munfold.
Qed.

(** A completed [fit], read backwards. *)
Lemma fit_inv G s s' :
  NoDup (nodes G) →
  fit G s = (s', Ok tt) →
  ∃ f parts, fitted s G s' f parts.
Proof.
  intros Hnd Hfit.
  destruct (check_graph G) eqn:Hck; [|by rewrite fit_rejected in Hfit].
  assert (∃ f, resolve_local (method_local s) = Some f ∨ nodes G = []) as [f Hf].
  { destruct (resolve_local (method_local s)) as [f|] eqn:Hf; [by eauto|].
    destruct (decide (nodes G = [])) as [Hn|Hn]; [exists (λ _, []); by right|].
    by rewrite fit_unresolved in Hfit. }
  rewrite (fit_run G s f) in Hfit by done.
  destruct (persona_edges _ _ _) as [l|] eqn:Hl; [|done].
  replace (method_global s)
    with (method_global (with_persona_graph l (indexed f G s))) in Hfit
    by (by destruct s).
  rewrite create_partitions_run in Hfit. cbv zeta in Hfit.
  set (s3 := with_persona_graph l (indexed f G s)) in *.
  set (s4 := match resolve_global s3 with
             | Some p => set_partitions p s3
             | None => s3
             end) in *.
  destruct (partitions s4) as [parts|] eqn:Hparts; [|done].
  pose proof (append_memberships_run parts (empty_memberships (graph s3))
    (set_overlapping_partitions (empty_memberships (graph s3)) s4)) as Hrun.
  assert (graph s3 = G) as HG by (by destruct s).
  assert (personality_map (set_overlapping_partitions (empty_memberships (graph s3)) s4)
          = personality_fold (egonets f G (nodes G)).1.2 (nodes G)) as Hpm.
  { unfold s4. destruct (resolve_global s3); by destruct s. }
  rewrite Hpm, HG in Hrun. rewrite HG in Hfit.
  destruct (aggregate _ _ parts) as [o|] eqn:Hagg.
  2:{ destruct Hrun as (s'' & Hrun & _); [by destruct s4|]. congruence. }
  rewrite Hrun in Hfit by (by destruct s4). injection Hfit as <-.
  exists f, parts.
  assert (∀ (X : Type) (pr : EgoNetSplitter → X),
    (∀ p x, pr (set_partitions p x) = pr x) →
    (∀ o x, pr (set_overlapping_partitions o x) = pr x) →
    pr (set_overlapping_partitions o
          (set_overlapping_partitions (empty_memberships G) s4)) = pr s3) as Hsame.
  { intros X pr Hp Ho. rewrite !Ho. unfold s4.
    by destruct (resolve_global s3); rewrite ?Hp. }
  split.
  - done.
  - done.
  - rewrite (Hsame _ graph); [done|by intros ? []..].
  - rewrite (Hsame _ weight); [by destruct s|by intros ? []..].
  - rewrite (Hsame _ components); [by destruct s|by intros ? []..].
  - rewrite (Hsame _ personalities); [by destruct s|by intros ? []..].
  - rewrite (Hsame _ index); [by destruct s|by intros ? []..].
  - rewrite (Hsame _ personality_map), (Hsame _ personalities);
      [by destruct s|by intros ? []..].
  - rewrite (Hsame _ components), (Hsame _ persona_graph_edges);
      [|by intros ? []..].
    replace (components s3) with (egonets f G (nodes G)).1.1 by (by destruct s).
    replace (persona_graph_edges s3) with l by (by destruct s). done.
  - rewrite (Hsame _ persona_graph), (Hsame _ persona_graph_edges);
      [by destruct s|by intros ? []..].
  - replace (partitions (set_overlapping_partitions o _)) with (partitions s4)
      by (by destruct s4). done.
  - rewrite (Hsame _ persona_graph_edges); [|by intros ? []..].
    replace (persona_graph_edges s3) with l by (by destruct s).
    fold s3. unfold s4 in Hparts.
    destruct (resolve_global s3) as [p|].
    + left. destruct s3; simpl in Hparts. congruence.
    + right. split; [done|]. rewrite <- Hparts. by destruct s.
  - exists o. split; [|by destruct s4].
    by rewrite (Hsame _ personality_map); [|intros ? []..].
Qed.

End fit_runs.

(** ** Dictionaries filled by loops *)

Section dictionaries.
Context {K V : Type} `{Countable K}.

(** Writing one value under every key of a list. *)
Lemma lookup_fill (l : list K) (x : V) (m : gmap K V) k :
  foldl (λ m k', <[k' := x]> m) m l !! k =
  if decide (k ∈ l) then Some x else m !! k.
Proof.
  revert m. induction l as [|a l IH]; intros m; simpl; [done|].
  rewrite IH. destruct (decide (k ∈ l)) as [Hl|Hl].
  - rewrite decide_True; [done|by right].
  - destruct (decide (k = a)) as [->|Hne].
    + rewrite lookup_insert_eq. rewrite decide_True; [done|by left].
    + rewrite lookup_insert_ne by done.
      rewrite decide_False; [done|]. by intros [?|?]%elem_of_cons.
Qed.

End dictionaries.

Lemma NoDup_fst_agree {A B} (l : list (A * B)) x y1 y2 :
  NoDup l.*1 → (x, y1) ∈ l → (x, y2) ∈ l → y1 = y2.
Proof.
  induction l as [|[a b] l IH]; simpl; [by intros _ ?%elem_of_nil|].
  intros [Ha Hnd]%NoDup_cons [H1|H1]%elem_of_cons [H2|H2]%elem_of_cons.
  - congruence.
  - injection H1 as -> ->. destruct Ha. apply list_elem_of_fmap. by exists (a, y2).
  - injection H2 as -> ->. destruct Ha. apply list_elem_of_fmap. by exists (a, y1).
  - by apply IH.
Qed.


Lemma elem_of_concat {A} (x : A) (ls : list (list A)) :
  x ∈ concat ls ↔ ∃ l, x ∈ l ∧ l ∈ ls.
Proof.
  induction ls as [|l ls IH]; simpl.
  - split; [by intros ?%elem_of_nil|]. by intros (l & _ & ?%elem_of_nil).
  - rewrite elem_of_app, IH. split.
    + intros [Hx|(l' & Hx & Hl')]; [exists l; split; [done|by left]|].
      exists l'. split; [done|by right].
    + intros (l' & Hx & [->|Hl']%elem_of_cons); [by left|]. right. eauto.
Qed.

Section cluster_maps.
Implicit Types (comps : list (nat * list node)) (m : gmap node nat).

Lemma cluster_map_Some idx comps m v p :
  cluster_map idx comps m !! v = Some p →
  m !! v = Some p ∨
  ∃ i kv, comps !! i = Some kv ∧ v ∈ kv.2 ∧ p = idx + i.
Proof.
  revert idx m. induction comps as [|kv comps IH]; intros idx m; simpl; [by left|].
  intros [Hm|(i & kv' & Hi & Hv & ->)]%IH.
  - rewrite lookup_fill in Hm. case_decide as Hv; [|by left].
    injection Hm as <-. right. exists 0, kv. by rewrite Nat.add_0_r.
  - right. exists (S i), kv'. split_and!; [done|done|lia].
Qed.

Lemma cluster_map_is_Some idx comps m v :
  is_Some (cluster_map idx comps m !! v) ↔
  is_Some (m !! v) ∨ ∃ kv, kv ∈ comps ∧ v ∈ kv.2.
Proof.
  revert idx m. induction comps as [|kv comps IH]; intros idx m; simpl.
  - split; [by left|]. intros [?|(kv & Hkv & _)]; [done|].
    by apply elem_of_nil in Hkv.
  - rewrite IH, lookup_fill. split.
    + intros [Hm|(kv' & Hkv' & Hv)].
      * case_decide; [|by left]. right. exists kv. split; [by left|done].
      * right. exists kv'. split; [by right|done].
    + intros [Hm|(kv' & [->|Hkv']%elem_of_cons & Hv)].
      * left. case_decide; eauto.
      * left. rewrite decide_True by done. eauto.
      * right. eauto.
Qed.

(** A node of a cluster keeps that cluster's persona when no later cluster
    holds it too. *)
Lemma cluster_map_lookup idx comps m i kv v :
  comps !! i = Some kv → v ∈ kv.2 →
  (∀ j kv', i < j → comps !! j = Some kv' → v ∉ kv'.2) →
  cluster_map idx comps m !! v = Some (idx + i).
Proof.
  revert idx m i. induction comps as [|kv0 comps IH]; intros idx m i; [done|].
  destruct i as [|i]; simpl.
  - intros [= ->] Hv Hlater.
    destruct (cluster_map (S idx) comps
                (foldl (λ m o, <[o := idx]> m) m kv.2) !! v) as [p|] eqn:Hp.
    + apply cluster_map_Some in Hp as [Hp|(j & kv' & Hj & Hv' & ->)].
      * rewrite lookup_fill, decide_True in Hp by done.
        by rewrite Nat.add_0_r.
      * by destruct (Hlater (S j) kv' ltac:(lia) Hj).
    + assert (is_Some (cluster_map (S idx) comps
                (foldl (λ m o, <[o := idx]> m) m kv.2) !! v)) as [? ?]; [|congruence].
      apply cluster_map_is_Some. left. rewrite lookup_fill, decide_True by done. eauto.
  - intros Hi Hv Hlater.
    rewrite (IH (S idx) _ i) ; [f_equal; lia|done|done|].
    intros j kv' Hij Hj. apply (Hlater (S j) kv'); [lia|done].
Qed.

End cluster_maps.

Section personality_maps.

Lemma personality_fold_from (P : node → list nat) ns (m0 : gmap nat node) p n :
  NoDup (concat (P <$> ns)) →
  foldl (λ m n, foldl (λ m p, <[p := n]> m) m (P n)) m0 ns !! p = Some n ↔
  (n ∈ ns ∧ p ∈ P n) ∨ (m0 !! p = Some n ∧ p ∉ concat (P <$> ns)).
Proof.
  revert m0. induction ns as [|a ns IH]; intros m0 Hnd; simpl.
  - split; [intros ?; right; split; [done|apply not_elem_of_nil]|].
    intros [[Hn _]|[? _]]; [by apply elem_of_nil in Hn|done].
  - simpl in Hnd. apply NoDup_app in Hnd as (HPa & Hdisj & Hnd).
    rewrite IH by done. rewrite lookup_fill. rewrite elem_of_app.
    split.
    + intros [[Hn Hp]|[Hm Hp]].
      * left. split; [by right|done].
      * case_decide as Hpa.
        -- injection Hm as <-. left. split; [by left|done].
        -- right. split; [done|]. by intros [?|?].
    + intros [[[->|Hn]%elem_of_cons Hp]|[Hm Hp]].
      * right. rewrite decide_True by done. split; [done|]. by apply Hdisj.
      * by left.
      * right. rewrite decide_False by (intros ?; apply Hp; by left).
        split; [done|]. intros ?; apply Hp; by right.
Qed.

Lemma personality_fold_lookup pers ns p n :
  NoDup (concat ((λ n, default [] (pers !! n)) <$> ns)) →
  personality_fold pers ns !! p = Some n ↔
  n ∈ ns ∧ p ∈ default [] (pers !! n).
Proof.
  intros Hnd. unfold personality_fold.
  rewrite (personality_fold_from (λ n, default [] (pers !! n))) by done.
  rewrite lookup_empty. split; [|by left].
  by intros [?|[? _]].
Qed.

End personality_maps.

Section aggregation.
Implicit Types (pm : gmap nat node) (o : gmap node (list nat)).

Lemma empty_memberships_lookup G n :
  empty_memberships G !! n = if decide (n ∈ nodes G) then Some [] else None.
Proof.
  unfold empty_memberships. rewrite lookup_fill.
  case_decide; [done|apply lookup_empty].
Qed.

(** Each node's list receives, in the order of the partition's items, the
    communities of the personas it owns. *)
Lemma aggregate_lookup pm o parts o' n :
  aggregate pm o parts = Some o' →
  o' !! n = (λ l, l ++ (filter (λ it, pm !! it.1 = Some n) parts).*2) <$> o !! n.
Proof.
  revert o. induction parts as [|item parts IH]; intros o; simpl.
  - intros [= <-]. destruct (o !! n); simpl; [|done]. by rewrite app_nil_r.
  - destruct (pm !! item.1) as [owner|] eqn:Hown; simpl; [|done].
    destruct (o !! owner) as [l|] eqn:Hl; simpl; [|done].
    intros Hagg. rewrite (IH _ Hagg). rewrite filter_cons.
    destruct (decide (owner = n)) as [->|Hne].
    + rewrite decide_True by done. rewrite lookup_insert_eq, Hl. simpl.
      by rewrite <- app_assoc.
    + rewrite decide_False by congruence. by rewrite lookup_insert_ne.
Qed.

Lemma aggregate_owners pm o parts o' :
  aggregate pm o parts = Some o' →
  Forall (λ it, is_Some (pm !! it.1)) parts.
Proof.
  revert o. induction parts as [|item parts IH]; intros o; simpl; [done|].
  destruct (pm !! item.1) as [owner|] eqn:Hown; simpl; [|done].
  destruct (o !! owner) as [l|] eqn:Hl; simpl; [|done].
  intros Hagg. constructor; [done|]. by eapply IH.
Qed.

Lemma aggregate_dom pm o parts o' :
  aggregate pm o parts = Some o' → dom o' = dom o.
Proof.
  intros Hagg. apply set_eq. intros n. rewrite !elem_of_dom.
  rewrite (aggregate_lookup _ _ _ _ _ Hagg). by rewrite fmap_is_Some.
Qed.

(** The loop completes when every key of the partition has an owner that
    is a key of the memberships. *)
Lemma aggregate_is_Some pm o parts :
  Forall (λ it, ∃ n, pm !! it.1 = Some n ∧ is_Some (o !! n)) parts →
  is_Some (aggregate pm o parts).
Proof.
  revert o. induction parts as [|item parts IH]; intros o Hall; simpl; [by eauto|].
  apply Forall_cons in Hall as [(n & Hn & [l Hl]) Hall].
  rewrite Hn. simpl. rewrite Hl. simpl. apply IH.
  eapply Forall_impl; [done|]. intros it (n' & Hn' & Hsome). exists n'. split; [done|].
  destruct (decide (n = n')) as [->|Hne].
  - rewrite lookup_insert_eq. eauto.
  - by rewrite lookup_insert_ne.
Qed.

End aggregation.

(** ** What a completed [fit] guarantees *)

Section fitted_facts.
Context `{External}.
Variables (s s' : EgoNetSplitter) (G : Graph) (f : local_strategy)
          (parts : list (nat * nat)).
Hypothesis Hnodes : NoDup (nodes G).
Hypothesis Hfit : fitted s G s' f parts.

Lemma fitted_personas n :
  n ∈ nodes G →
  personalities s' !! n =
  Some (seq (persona_base f G (nodes G) n) (length (clusters_of f G n))).
Proof.
  intros Hn. rewrite (fitted_personalities _ _ _ _ _ Hfit).
  by apply egonets_personalities.
Qed.

Lemma fitted_personas_length n :
  n ∈ nodes G → length (personas_of s' n) = length (clusters_of f G n).
Proof.
  intros Hn. unfold personas_of. rewrite fitted_personas by done.
  simpl. by rewrite length_seq.
Qed.

Lemma fitted_persona_range :
  concat (personas_of s' <$> nodes G) = seq 0 (index s').
Proof.
  unfold personas_of.
  rewrite (fitted_personalities _ _ _ _ _ Hfit), (fitted_index _ _ _ _ _ Hfit).
  rewrite egonets_index by done. by apply persona_ranges.
Qed.

Lemma fitted_owner p n :
  personality_map s' !! p = Some n ↔ n ∈ nodes G ∧ p ∈ personas_of s' n.
Proof.
  rewrite (fitted_personality_map _ _ _ _ _ Hfit).
  apply personality_fold_lookup.
  change (NoDup (concat (personas_of s' <$> nodes G))).
  rewrite fitted_persona_range. apply NoDup_seq.
Qed.

Lemma fitted_owner_total p :
  is_Some (personality_map s' !! p) ↔ p < index s'.
Proof.
  assert (p < index s' ↔ p ∈ concat (personas_of s' <$> nodes G)) as ->.
  { rewrite fitted_persona_range, elem_of_seq. lia. }
  rewrite elem_of_concat. split.
  - intros [n [Hn Hp]%fitted_owner]. exists (personas_of s' n).
    split; [done|]. by apply list_elem_of_fmap_2.
  - intros (ps & Hp & (n & -> & Hn)%list_elem_of_fmap).
    exists n. by apply fitted_owner.
Qed.

Lemma fitted_components_node n :
  n ∈ nodes G →
  components s' !! n =
  Some (cluster_map (persona_base f G (nodes G) n) (clusters_of f G n) ∅).
Proof.
  intros Hn. rewrite (fitted_components _ _ _ _ _ Hfit).
  by apply egonets_components.
Qed.

(** A persona found through [components[u][v]] belongs to [u]. *)
Lemma fitted_component_owner u v p :
  u ∈ nodes G →
  lookup_component (components s') u v = Some p →
  p ∈ personas_of s' u.
Proof.
  intros Hu. unfold lookup_component, personas_of.
  rewrite fitted_components_node, fitted_personas by done. simpl.
  intros [Hp|(i & kv & Hi & _ & ->)]%cluster_map_Some.
  - by rewrite lookup_empty in Hp.
  - apply elem_of_seq. apply lookup_lt_Some in Hi. lia.
Qed.

Lemma fitted_membership o n :
  overlapping_partitions s' = Some o →
  n ∈ nodes G →
  o !! n = Some (filter (λ it, personality_map s' !! it.1 = Some n) parts).*2.
Proof.
  intros Ho Hn. destruct (fitted_memberships _ _ _ _ _ Hfit) as (o' & Hagg & Ho').
  assert (o' = o) as -> by congruence.
  rewrite (aggregate_lookup _ _ _ _ _ Hagg), empty_memberships_lookup.
  by rewrite decide_True.
Qed.

Lemma fitted_membership_dom o :
  overlapping_partitions s' = Some o → dom o = list_to_set (nodes G).
Proof.
  intros Ho. destruct (fitted_memberships _ _ _ _ _ Hfit) as (o' & Hagg & Ho').
  assert (o' = o) as -> by congruence.
  rewrite (aggregate_dom _ _ _ _ Hagg). apply set_eq. intros n.
  rewrite elem_of_dom, empty_memberships_lookup, elem_of_list_to_set.
  case_decide as Hn; split; [done|by eauto|by intros [? ?]|done].
Qed.

End fitted_facts.

(** ** Edges of a well-formed graph *)

Lemma norm_pair_eq a b c d :
  norm_pair (a, b) = norm_pair (c, d) ↔ (a = c ∧ b = d) ∨ (a = d ∧ b = c).
Proof.
  unfold norm_pair. simpl. repeat case_decide; split.
  all: try (intros [= -> ->]); try (intros [[-> ->]|[-> ->]]).
  all: try (by left); try (by right); try (f_equal; lia).
  all: first [left; split; lia | right; split; lia].
Qed.

Lemma norm_pair_swap a b : norm_pair (a, b) = norm_pair (b, a).
Proof. apply norm_pair_eq. by right. Qed.

Section graph_edges.
Variable G : Graph.

Lemma graph_wf_nodes : graph_wf G → NoDup (nodes G).
Proof. by intros [? _]. Qed.

Lemma graph_wf_neighbors u : graph_wf G → u ∈ nodes G → NoDup (neighbors G u).
Proof.
  intros [_ Hall] Hu. rewrite Forall_forall in Hall. by destruct (Hall u Hu).
Qed.

Lemma graph_wf_adj u v d :
  graph_wf G → u ∈ nodes G → (v, d) ∈ adj G u →
  v ∈ nodes G ∧ (u, d) ∈ adj G v.
Proof.
  intros [_ Hall] Hu Hv. rewrite Forall_forall in Hall.
  destruct (Hall u Hu) as [_ Hadj]. rewrite Forall_forall in Hadj.
  apply (Hadj _ Hv).
Qed.

Lemma graph_wf_sym u v :
  graph_wf G → u ∈ nodes G → v ∈ neighbors G u →
  v ∈ nodes G ∧ u ∈ neighbors G v.
Proof.
  intros Hwf Hu ([v' d] & -> & Hv)%list_elem_of_fmap.
  destruct (graph_wf_adj u v' d Hwf Hu Hv) as [Hn Hadj].
  split; [done|]. apply list_elem_of_fmap. by exists (u, d).
Qed.

Lemma elem_of_edges_from seen ns u v d :
  (u, v, d) ∈ edges_from G seen ns ↔
  ∃ i, ns !! i = Some u ∧ (v, d) ∈ adj G u ∧ (v ∉ seen) ∧ (v ∉ take i ns).
Proof.
  revert seen. induction ns as [|n ns IH]; intros seen; simpl.
  - split; [by intros ?%elem_of_nil|]. by intros (i & ? & _).
  - rewrite elem_of_app, IH, list_elem_of_fmap. split.
    + intros [([v' d'] & [= -> -> ->] & [Hseen Hadj]%list_elem_of_filter)
             |(i & Hi & Hadj & Hseen & Htake)].
      * exists 0. simpl in *. split_and!; [done|done|done|apply not_elem_of_nil].
      * exists (S i). simpl. rewrite not_elem_of_app in Hseen.
        destruct Hseen as [Hseen Hn]. split_and!; [done|done|done|].
        rewrite not_elem_of_cons. split; [|done].
        intros ->. apply Hn. by left.
    + intros ([|i] & Hi & Hadj & Hseen & Htake); simpl in *.
      * injection Hi as ->. left. exists (v, d). split; [done|].
        by apply list_elem_of_filter.
      * right. exists i. apply not_elem_of_cons in Htake as [Hvn Htake].
        split_and!; [done|done| |done].
        rewrite not_elem_of_app. split; [done|]. by intros ->%list_elem_of_singleton.
Qed.

Lemma elem_of_edges u v d :
  (u, v, d) ∈ edges G ↔
  ∃ i, nodes G !! i = Some u ∧ (v, d) ∈ adj G u ∧ v ∉ take i (nodes G).
Proof.
  unfold edges. rewrite elem_of_edges_from. split.
  - intros (i & ? & ? & _ & ?). eauto.
  - intros (i & ? & ? & ?). exists i. split_and!; [done|done|apply not_elem_of_nil|done].
Qed.

Lemma edges_adj u v d :
  (u, v, d) ∈ edges G → u ∈ nodes G ∧ (v, d) ∈ adj G u.
Proof.
  intros (i & Hi & Hadj & _)%elem_of_edges. split; [|done].
  by eapply list_elem_of_lookup_2.
Qed.

(** Every adjacency is reported by [edges], from one of its two ends. *)
Lemma adj_edges u v d :
  graph_wf G → u ∈ nodes G → (v, d) ∈ adj G u →
  (u, v, d) ∈ edges G ∨ (v, u, d) ∈ edges G.
Proof.
  intros Hwf Hu Hadj.
  destruct (graph_wf_adj u v d Hwf Hu Hadj) as [Hv Hadj'].
  apply list_elem_of_lookup in Hu as [i Hi].
  destruct (decide (v ∈ take i (nodes G))) as [Hin|Hout].
  - right. apply list_elem_of_lookup in Hin as [j Hj].
    assert (j < i) as Hlt.
    { apply lookup_lt_Some in Hj. rewrite length_take in Hj. lia. }
    rewrite lookup_take_lt in Hj by done.
    apply elem_of_edges. exists j. split_and!; [done|done|].
    intros [k Hk]%list_elem_of_lookup.
    assert (k < j) as Hkj.
    { apply lookup_lt_Some in Hk. rewrite length_take in Hk. lia. }
    rewrite lookup_take_lt in Hk by done.
    pose proof (NoDup_lookup _ _ _ _ (graph_wf_nodes Hwf) Hi Hk). lia.
  - left. apply elem_of_edges. eauto.
Qed.

Lemma edges_from_NoDup seen ns :
  NoDup ns →
  (∀ n, n ∈ ns → NoDup (neighbors G n)) →
  NoDup ((λ e, norm_pair e.1) <$> edges_from G seen ns).
Proof.
  revert seen. induction ns as [|n ns IH]; intros seen Hnd Hnb; simpl.
  - constructor.
  - apply NoDup_cons in Hnd as [Hn Hnd]. rewrite fmap_app.
    apply NoDup_app. split_and!.
    + rewrite <- list_fmap_compose.
      apply (NoDup_fmap_2_strong (λ p, norm_pair (n, p.1))).
      2:{ apply NoDup_filter. eapply NoDup_fmap_1. apply (Hnb n). by left. }
      intros [v d] [v' d'] [_ Hv]%list_elem_of_filter [_ Hv']%list_elem_of_filter Heq.
      assert (NoDup (adj G n).*1) as Hkeys by (apply (Hnb n); by left).
      simpl in Heq. assert (v = v') as <-.
      { apply norm_pair_eq in Heq as [[_ ?]|[? ?]]; congruence. }
      f_equal. by eapply (NoDup_fst_agree (adj G n)).
    + intros x ([[a b] d] & -> & ([v d'] & [= -> -> ->] & [Hseen _]%list_elem_of_filter)
                 %list_elem_of_fmap)%list_elem_of_fmap.
      intros ([[a' b'] d''] & Heq & (i & Hi & _ & Hseen' & _)%elem_of_edges_from)
               %list_elem_of_fmap.
      simpl in *. apply not_elem_of_app in Hseen' as [_ Hb'].
      apply norm_pair_eq in Heq as [[-> _]|[-> _]].
      * apply Hn. by eapply list_elem_of_lookup_2.
      * apply Hb'. by left.
    + apply IH; [done|]. intros m Hm. apply Hnb. by right.
Qed.

(** [edges] lists every undirected edge once. *)
Lemma edges_NoDup :
  graph_wf G → NoDup ((λ e, norm_pair e.1) <$> edges G).
Proof.
  intros Hwf. apply edges_from_NoDup; [by apply graph_wf_nodes|].
  intros n Hn. by apply graph_wf_neighbors.
Qed.

Lemma elem_of_norm_edges x :
  graph_wf G →
  x ∈ (λ e, norm_pair e.1) <$> edges G ↔
  ∃ u v, x = norm_pair (u, v) ∧ u ∈ nodes G ∧ v ∈ neighbors G u.
Proof.
  intros Hwf. rewrite list_elem_of_fmap. split.
  - intros ([[u v] d] & -> & [Hu Hadj]%edges_adj). exists u, v.
    split_and!; [done|done|]. apply list_elem_of_fmap. by exists (v, d).
  - intros (u & v & -> & Hu & ([v' d] & -> & Hadj)%list_elem_of_fmap).
    destruct (adj_edges u v' d Hwf Hu Hadj) as [He|He].
    + by exists (u, v', d).
    + exists (v', u, d). split; [apply norm_pair_swap|done].
Qed.

End graph_edges.

(** ** Building a graph edge by edge *)

Section dict_ops.
Context {V : Type}.
Implicit Types (d : list (node * V)).

Lemma dict_set_keys k v d :
  (dict_set k v d).*1 = if decide (k ∈ d.*1) then d.*1 else d.*1 ++ [k].
Proof.
  unfold dict_set. case_decide.
  - rewrite <- list_fmap_compose. apply list_fmap_ext.
    intros i p _. simpl. by case_decide.
  - by rewrite fmap_app.
Qed.

Lemma dict_set_NoDup k v d : NoDup d.*1 → NoDup (dict_set k v d).*1.
Proof.
  intros Hnd. rewrite dict_set_keys. case_decide; [done|].
  apply NoDup_app. split_and!; [done| |apply NoDup_singleton].
  by intros x Hx ->%list_elem_of_singleton.
Qed.

Lemma elem_of_dict_set k v d k' v' :
  (k', v') ∈ dict_set k v d ↔ (k' = k ∧ v' = v) ∨ (k' ≠ k ∧ (k', v') ∈ d).
Proof.
  unfold dict_set. case_decide as Hk.
  - rewrite list_elem_of_fmap. split.
    + intros ([a b] & Heq & Hab). simpl in Heq. case_decide; simplify_eq; eauto.
    + intros [[-> ->]|[Hne Hin]].
      * apply list_elem_of_fmap in Hk as ([a b] & -> & Hab).
        exists (a, b). simpl. by rewrite decide_True.
      * exists (k', v'). simpl. by rewrite decide_False.
  - rewrite elem_of_app, list_elem_of_singleton. split.
    + intros [Hin|[= -> ->]]; [|by left]. right. split; [|done].
      intros ->. apply Hk. apply list_elem_of_fmap. by exists (k, v').
    + intros [[-> ->]|[_ Hin]]; eauto.
Qed.

Lemma dict_get_None k d : dict_get k d = None ↔ k ∉ d.*1.
Proof.
  unfold dict_get. rewrite fmap_None, list_find_None, Forall_forall.
  rewrite list_elem_of_fmap. split.
  - intros Hall ([a b] & -> & Hab). by apply (Hall _ Hab).
  - intros Hk [a b] Hab Heq. simpl in Heq. apply Hk. exists (a, b).
    split; [by rewrite <- Heq|done].
Qed.

Lemma dict_get_Some k d v : NoDup d.*1 → (k, v) ∈ d → dict_get k d = Some v.
Proof.
  intros Hnd Hin. unfold dict_get.
  destruct (list_find (λ p, p.1 = k) d) as [[i [a b]]|] eqn:Hfind; simpl.
  - apply list_find_Some in Hfind as (Hi & Heq & _). simpl in Heq. subst.
    f_equal. eapply (NoDup_fst_agree d); [done| |done].
    by eapply list_elem_of_lookup_2.
  - rewrite list_find_None, Forall_forall in Hfind. by destruct (Hfind _ Hin).
Qed.

End dict_ops.

Lemma graph_wf_linked G :
  graph_wf G ↔
  NoDup (nodes G) ∧ (∀ a, a ∈ nodes G → NoDup (neighbors G a)) ∧
  (∀ a b d, linked G a b d → linked G b a d).
Proof.
  unfold graph_wf, linked. rewrite Forall_forall. split.
  - intros [Hnd Hall]. split_and!; [done| |].
    + intros a Ha. by destruct (Hall a Ha).
    + intros a b d [Ha Hab]. destruct (Hall a Ha) as [_ Hadj].
      rewrite Forall_forall in Hadj. apply (Hadj _ Hab).
  - intros (Hnd & Hkeys & Hsym). split; [done|]. intros a Ha. split; [by apply Hkeys|].
    apply Forall_forall. intros [b d] Hab. by apply Hsym.
Qed.

Section add_edges.
Implicit Types (G : Graph) (u v a b : node) (dd d : attrs).

Lemma elem_of_nodes_add_node G u x :
  x ∈ nodes (add_node G u) ↔ x ∈ nodes G ∨ x = u.
Proof.
  unfold add_node. case_decide; simpl.
  - split; [by left|]. by intros [?| ->].
  - by rewrite elem_of_app, list_elem_of_singleton.
Qed.

Lemma add_node_NoDup G u : NoDup (nodes G) → NoDup (nodes (add_node G u)).
Proof.
  intros Hnd. unfold add_node. case_decide; simpl; [done|].
  apply NoDup_app. split_and!; [done| |apply NoDup_singleton].
  by intros x Hx ->%list_elem_of_singleton.
Qed.

Lemma linked_add_node G u a b d : linked (add_node G u) a b d ↔ linked G a b d.
Proof.
  unfold linked, add_node. case_decide as Hu; simpl; [done|].
  unfold fn_upd. rewrite elem_of_app, list_elem_of_singleton.
  case_decide as Ha.
  - subst. split; [by intros [_ ?%elem_of_nil]|]. by intros [? _].
  - split; [intros [[?|?] ?]; done|]. intros [? ?]. eauto.
Qed.

Lemma add_node_keys G u a :
  (∀ x, x ∈ nodes G → NoDup (neighbors G x)) →
  a ∈ nodes (add_node G u) → NoDup (neighbors (add_node G u) a).
Proof.
  intros Hkeys. unfold add_node, neighbors. case_decide as Hu; simpl; [by apply Hkeys|].
  unfold fn_upd. rewrite elem_of_app, list_elem_of_singleton.
  case_decide; [intros _; constructor|]. intros [?|?]; [by apply Hkeys|done].
Qed.

(** The adjacencies after [add_edge], in terms of the graph with both
    endpoints added. *)
Lemma adj_add_edge G u v dd x :
  adj (add_edge G u v dd) x =
  if decide (x = v)
  then dict_set u (dd ∪ default ∅ (dict_get v (adj (add_node (add_node G u) v) u)))
         (if decide (v = u)
          then dict_set v (dd ∪ default ∅ (dict_get v (adj (add_node (add_node G u) v) u)))
                 (adj (add_node (add_node G u) v) u)
          else adj (add_node (add_node G u) v) v)
  else if decide (x = u)
       then dict_set v (dd ∪ default ∅ (dict_get v (adj (add_node (add_node G u) v) u)))
              (adj (add_node (add_node G u) v) u)
       else adj (add_node (add_node G u) v) x.
Proof. done. Qed.

Lemma add_edge_data G u v :
  dict_get v (adj (add_node (add_node G u) v) u) = edge_data G u v.
Proof.
  unfold edge_data, add_node. repeat (case_decide; simpl); unfold fn_upd;
    repeat (case_decide; simpl); try done.
  all: by subst.
Qed.

Lemma elem_of_nodes_add_edge G u v dd x :
  x ∈ nodes (add_edge G u v dd) ↔ x ∈ nodes G ∨ x = u ∨ x = v.
Proof.
  unfold add_edge. simpl. rewrite !elem_of_nodes_add_node. tauto.
Qed.

Lemma linked_add_edge G u v dd a b d :
  linked (add_edge G u v dd) a b d ↔
  (((a = u ∧ b = v) ∨ (a = v ∧ b = u)) ∧ d = dd ∪ default ∅ (edge_data G u v)) ∨
  (¬ ((a = u ∧ b = v) ∨ (a = v ∧ b = u)) ∧ linked G a b d).
Proof.
  rewrite <- (linked_add_node G u a b d).
  rewrite <- (linked_add_node (add_node G u) v a b d).
  unfold linked at 1. rewrite adj_add_edge. rewrite add_edge_data.
  change (nodes (add_edge G u v dd)) with (nodes (add_node (add_node G u) v)).
  unfold linked.
  assert (u ∈ nodes (add_node (add_node G u) v)) as Hu.
  { rewrite !elem_of_nodes_add_node. by left; right. }
  assert (v ∈ nodes (add_node (add_node G u) v)) as Hv.
  { rewrite !elem_of_nodes_add_node. by right. }
  repeat case_decide; subst; rewrite ?elem_of_dict_set; naive_solver.
Qed.

Lemma add_edge_wf G u v dd : graph_wf G → graph_wf (add_edge G u v dd).
Proof.
  rewrite !graph_wf_linked. intros (Hnd & Hkeys & Hsym). split_and!.
  - unfold add_edge. simpl. by do 2 apply add_node_NoDup.
  - intros a Ha.
    assert (∀ x, x ∈ nodes (add_node (add_node G u) v) →
                 NoDup (neighbors (add_node (add_node G u) v) x)) as Hk1.
    { intros x. apply add_node_keys. intros y. by apply add_node_keys. }
    unfold neighbors. rewrite adj_add_edge.
    change (a ∈ nodes (add_node (add_node G u) v)) in Ha.
    assert (u ∈ nodes (add_node (add_node G u) v)) as Hu.
    { rewrite !elem_of_nodes_add_node. by left; right. }
    assert (v ∈ nodes (add_node (add_node G u) v)) as Hv.
    { rewrite !elem_of_nodes_add_node. by right. }
    repeat case_decide; subst; repeat apply dict_set_NoDup; by apply Hk1.
  - intros a b d. rewrite !linked_add_edge.
    intros [[Hab ->]|[Hab Hl]]; [left|right].
    + split; [tauto|done].
    + split; [tauto|by apply Hsym].
Qed.

Lemma empty_graph_wf : graph_wf empty_graph.
Proof. split; simpl; constructor. Qed.

End add_edges.

Section from_edgelists.
Implicit Types (G : Graph) (l : list persona_edge) (e : persona_edge).

Lemma add_persona_edge_ends G e :
  add_persona_edge G e = add_edge G (ends e).1 (ends e).2 (edge_attrs e).
Proof. by destruct e. Qed.

Lemma foldl_add_wf G l : graph_wf G → graph_wf (foldl add_persona_edge G l).
Proof.
  revert G. induction l as [|e l IH]; intros G Hwf; simpl; [done|].
  apply IH. rewrite add_persona_edge_ends. by apply add_edge_wf.
Qed.

Lemma from_edgelist_wf l : graph_wf (from_edgelist l).
Proof. apply foldl_add_wf, empty_graph_wf. Qed.

Lemma edge_data_None G a b :
  edge_data G a b = None ↔ ∀ d, ¬ linked G a b d.
Proof.
  unfold edge_data, linked. case_decide as Ha.
  - rewrite dict_get_None, list_elem_of_fmap. split.
    + intros Hb d [_ Hd]. apply Hb. by exists (b, d).
    + intros Hl ([b' d] & -> & Hd). by apply (Hl d).
  - split; [|done]. by intros _ d [? _].
Qed.

Lemma elem_of_nodes_foldl_add G l x :
  x ∈ nodes (foldl add_persona_edge G l) ↔
  x ∈ nodes G ∨ ∃ e, e ∈ l ∧ (x = (ends e).1 ∨ x = (ends e).2).
Proof.
  revert G. induction l as [|e l IH]; intros G; simpl.
  - split; [by left|]. intros [?|(e & ?%elem_of_nil & _)]; done.
  - rewrite IH, add_persona_edge_ends, elem_of_nodes_add_edge. split.
    + intros [[?|Hx]|(e' & He' & Hx)]; [by left| |].
      * right. exists e. split; [by left|done].
      * right. exists e'. split; [by right|done].
    + intros [?|(e' & [->|He']%elem_of_cons & Hx)]; [by left; left|by left; right|].
      right. eauto.
Qed.

(** Adjacent pairs after adding the edges of [l]. *)
Lemma linked_foldl_add G l a b :
  (∃ d, linked (foldl add_persona_edge G l) a b d) ↔
  (∃ d, linked G a b d) ∨ ∃ e, e ∈ l ∧ norm_pair (ends e) = norm_pair (a, b).
Proof.
  revert G. induction l as [|e l IH]; intros G; simpl.
  - split; [by left|]. intros [?|(e & ?%elem_of_nil & _)]; done.
  - rewrite IH, add_persona_edge_ends. split.
    + intros [[d Hd]|(e' & He' & Heq)].
      * apply linked_add_edge in Hd as [[Hab _]|[_ Hd]]; [|by eauto].
        right. exists e. split; [by left|]. destruct (ends e) as [u v].
        apply norm_pair_eq. simpl in Hab. naive_solver.
      * right. exists e'. split; [by right|done].
    + intros [[d Hd]|(e' & [->|He']%elem_of_cons & Heq)].
      * left.
        destruct (decide (((a = (ends e).1 ∧ b = (ends e).2) ∨
                           (a = (ends e).2 ∧ b = (ends e).1)))) as [Hab|Hab].
        -- eexists. apply linked_add_edge. left. by split.
        -- exists d. apply linked_add_edge. by right.
      * left. eexists. apply linked_add_edge. left. split; [|done].
        destruct (ends e) as [u v]. apply norm_pair_eq in Heq. simpl. naive_solver.
      * right. eauto.
Qed.

Lemma linked_foldl_keep G l a b d :
  linked G a b d →
  (∀ e, e ∈ l → norm_pair (ends e) ≠ norm_pair (a, b)) →
  linked (foldl add_persona_edge G l) a b d.
Proof.
  revert G. induction l as [|e l IH]; intros G Hd Hne; simpl; [done|].
  apply IH; [|intros e' He'; apply Hne; by right].
  rewrite add_persona_edge_ends. apply linked_add_edge. right. split; [|done].
  intros Hab. apply (Hne e); [by left|]. destruct (ends e) as [u v].
  apply norm_pair_eq. simpl in Hab. naive_solver.
Qed.

(** Edges with pairwise different endpoint pairs keep their own
    dictionaries. *)
Lemma linked_foldl_new G l e :
  NoDup (norm_pair ∘ ends <$> l) →
  (∀ e', e' ∈ l → ∀ d, ¬ linked G (ends e').1 (ends e').2 d) →
  e ∈ l →
  linked (foldl add_persona_edge G l) (ends e).1 (ends e).2 (edge_attrs e).
Proof.
  revert G. induction l as [|e0 l IH]; intros G Hnd Hnew He; simpl.
  - by apply elem_of_nil in He.
  - rewrite fmap_cons in Hnd. apply NoDup_cons in Hnd as [Hfresh Hnd].
    apply elem_of_cons in He as [->|He].
    + apply linked_foldl_keep.
      * rewrite add_persona_edge_ends. apply linked_add_edge. left.
        split; [by left|].
        assert (edge_data G (ends e0).1 (ends e0).2 = None) as ->.
        { apply edge_data_None. apply Hnew. by left. }
        simpl. by rewrite (right_id_L ∅ (∪)).
      * intros e' He' Heq. apply Hfresh. apply list_elem_of_fmap. exists e'.
        split; [|done]. simpl. rewrite Heq. by destruct (ends e0).
    + apply IH; [done| |done].
      intros e' He' d. rewrite add_persona_edge_ends, linked_add_edge.
      intros [[Hab _]|[_ Hd]].
      * apply Hfresh. apply list_elem_of_fmap. exists e'. split; [|done]. simpl.
        destruct (ends e') as [a b], (ends e0) as [u v]. apply norm_pair_eq.
        simpl in Hab. naive_solver.
      * apply (Hnew e' ltac:(by right) d Hd).
Qed.

Lemma from_edgelist_linked l e :
  NoDup (norm_pair ∘ ends <$> l) → e ∈ l →
  linked (from_edgelist l) (ends e).1 (ends e).2 (edge_attrs e).
Proof.
  intros Hnd He. apply linked_foldl_new; [done| |done].
  intros e' _ d [Hn _]. by apply elem_of_nil in Hn.
Qed.

Lemma elem_of_norm_from_edgelist l x :
  x ∈ (λ t, norm_pair t.1) <$> edges (from_edgelist l) ↔
  x ∈ norm_pair ∘ ends <$> l.
Proof.
  rewrite elem_of_norm_edges by apply from_edgelist_wf.
  rewrite list_elem_of_fmap. split.
  - intros (u & v & -> & Hu & ([v' d] & -> & Hd)%list_elem_of_fmap).
    assert (∃ d, linked (from_edgelist l) u v' d) as Hl by (by exists d).
    apply linked_foldl_add in Hl as [[d' [Hn _]]|(e & He & Heq)].
    + by apply elem_of_nil in Hn.
    + exists e. by split.
  - intros (e & -> & He).
    assert (∃ d, linked (from_edgelist l) (ends e).1 (ends e).2 d) as [d [Hu Hd]].
    { apply linked_foldl_add. right. exists e. split; [done|]. by destruct (ends e). }
    exists (ends e).1, (ends e).2. split_and!; [simpl; by destruct (ends e)|done|].
    apply list_elem_of_fmap. by exists ((ends e).2, d).
Qed.

(** [from_edgelist] merges nothing when the endpoint pairs differ. *)
Lemma from_edgelist_number_of_edges l :
  NoDup (norm_pair ∘ ends <$> l) →
  number_of_edges (from_edgelist l) = length l.
Proof.
  intros Hnd. unfold number_of_edges.
  assert (((λ t, norm_pair t.1) <$> edges (from_edgelist l))
            ≡ₚ (norm_pair ∘ ends <$> l)) as HP.
  { apply NoDup_Permutation; [|done|].
    - apply edges_NoDup, from_edgelist_wf.
    - intros x. apply elem_of_norm_from_edgelist. }
  apply Permutation_length in HP. by rewrite !length_fmap in HP.
Qed.

End from_edgelists.

(** ** Connected components *)

Section components.
Variable H : Graph.
Hypothesis Hnodup : NoDup (nodes H).
Hypothesis Hclosed : ∀ u x, x ∈ neighbors H u → x ∈ nodes H.
Hypothesis Hsym : ∀ u x, x ∈ neighbors H u → u ∈ neighbors H x.

Lemma reach_sym a b : reach H a b → reach H b a.
Proof.
  induction 1 as [|a b c Hab _ IH]; [constructor|].
  eapply rtc_r; [done|]. by apply Hsym.
Qed.

Lemma closed_under_reach S a b : closed_under H S → a ∈ S → reach H a b → b ∈ S.
Proof. intros HS Ha Hab. induction Hab as [|a b c Hab _ IH]; eauto. Qed.

Lemma bfs_level_from seen next level :
  let st := foldl (λ st v, if decide (v ∈ st.1) then st
                           else (st.1 ++ [v], st.2 ++ neighbors H v))
                  (seen, next) level in
  (∀ x, x ∈ st.1 ↔ x ∈ seen ∨ x ∈ level) ∧
  (NoDup seen → NoDup st.1) ∧
  (∀ x, x ∈ st.2 ↔
        x ∈ next ∨ ∃ v, v ∈ level ∧ (v ∉ seen) ∧ x ∈ neighbors H v) ∧
  length seen ≤ length st.1 ∧
  ((∃ v, v ∈ level ∧ v ∉ seen) → length seen < length st.1).
Proof.
  revert seen next. induction level as [|v level IH]; intros seen next; simpl.
  - split_and!; [set_solver|done|set_solver|lia|set_solver].
  - case_decide as Hv; simpl.
    + destruct (IH seen next) as (Ha & Hb & Hc & Hd & He).
      split_and!; [set_solver|done|set_solver|done|].
      intros (w & [->|Hw]%elem_of_cons & Hws); [done|]. apply He. eauto.
    + destruct (IH (seen ++ [v]) (next ++ neighbors H v)) as (Ha & Hb & Hc & Hd & He).
      rewrite length_app in Hd. simpl in Hd.
      split_and!.
      * intros x. rewrite Ha. set_solver.
      * intros Hnd. apply Hb. apply NoDup_app.
        split_and!; [done| |apply NoDup_singleton].
        by intros x Hx ->%list_elem_of_singleton.
      * intros x. rewrite Hc, elem_of_app. split.
        -- intros [[?|?]|(w & Hw & Hws & Hx)]; [by left| |].
           ++ right. exists v. split_and!; [by left|done|done].
           ++ right. exists w. split_and!; [by right|set_solver|done].
        -- intros [?|(w & [->|Hw]%elem_of_cons & Hws & Hx)]; [by left; left|by left; right|].
           destruct (decide (w = v)) as [->|Hne]; [by left; right|].
           right. exists w. split_and!; [done|set_solver|done].
      * lia.
      * intros _. lia.
Qed.

Lemma bfs_level_spec seen level :
  let st := bfs_level H seen level in
  (∀ x, x ∈ st.1 ↔ x ∈ seen ∨ x ∈ level) ∧
  (NoDup seen → NoDup st.1) ∧
  (∀ x, x ∈ st.2 ↔ ∃ v, v ∈ level ∧ (v ∉ seen) ∧ x ∈ neighbors H v) ∧
  ((∃ v, v ∈ level ∧ v ∉ seen) → length seen < length st.1).
Proof.
  destruct (bfs_level_from seen [] level) as (Ha & Hb & Hc & _ & He).
  split_and!; [done|done| |done].
  intros x. unfold bfs_level. rewrite Hc. set_solver.
Qed.

Lemma bfs_loop_spec src fuel seen level :
  bfs_inv H src seen level →
  level = [] ∨ length (nodes H) < fuel + length seen →
  let R := bfs_loop fuel H seen level in
  NoDup R ∧ (∀ x, x ∈ seen ∨ x ∈ level → x ∈ R) ∧
  (∀ x, x ∈ R → x ∈ nodes H ∧ reach H src x) ∧ closed_under H R.
Proof.
  revert seen level. induction fuel as [|fuel IH]; intros seen level Hinv Hfuel.
  - destruct Hinv as (Hnd & Hin & Hcl).
    assert (level = []) as ->.
    { destruct Hfuel as [?|Hlen]; [done|].
      assert (length seen ≤ length (nodes H)); [|lia].
      apply submseteq_length, NoDup_submseteq; [done|]. intros x Hx.
      apply Hin. by left. }
    simpl. split_and!; [done|set_solver|set_solver|].
    intros v x Hv Hx. destruct (Hcl v x Hv Hx) as [?|?%elem_of_nil]; done.
  - destruct level as [|w level].
    { destruct Hinv as (Hnd & Hin & Hcl).
      simpl. split_and!; [done|set_solver|set_solver|].
      intros v x Hv Hx. destruct (Hcl v x Hv Hx) as [?|?%elem_of_nil]; done. }
    cbn [bfs_loop]. cbv zeta.
    destruct (bfs_level_spec seen (w :: level)) as (Ha & Hb & Hc & He).
    destruct Hinv as (Hnd & Hin & Hcl).
    destruct (IH (bfs_level H seen (w :: level)).1 (bfs_level H seen (w :: level)).2)
      as (HR1 & HR2 & HR3 & HR4).
    + split_and!.
      * by apply Hb.
      * intros x [Hx|Hx].
        -- apply Hin. by apply Ha.
        -- apply Hc in Hx as (v & Hv & _ & Hx). split; [by eapply Hclosed|].
           eapply rtc_r; [|done]. apply Hin. by right.
      * intros v x Hv Hx. apply Ha in Hv as [Hv|Hv].
        -- left. apply Ha. by eapply Hcl.
        -- destruct (decide (v ∈ seen)) as [Hvs|Hvs].
           ++ left. apply Ha. by eapply Hcl.
           ++ right. apply Hc. eauto.
    + destruct (decide (Exists (λ v, v ∉ seen) (w :: level))) as [Hex|Hex].
      * right. apply Exists_exists in Hex. specialize (He Hex).
        destruct Hfuel as [?|?]; [done|lia].
      * left. apply not_Exists_Forall in Hex; [|apply _].
        rewrite Forall_forall in Hex.
        destruct (bfs_level H seen (w :: level)).2 as [|y ys] eqn:Hst; [done|].
        assert (y ∈ y :: ys) as Hy by (by left).
        apply Hc in Hy as (v & Hv & Hvs & _). destruct (Hex v Hv). simpl. done.
    + split_and!; [done| |done|done].
      intros x Hx. apply HR2. left. by apply Ha.
Qed.

Lemma plain_bfs_spec v :
  v ∈ nodes H →
  NoDup (_plain_bfs H v) ∧ v ∈ _plain_bfs H v ∧
  (∀ x, x ∈ _plain_bfs H v → x ∈ nodes H ∧ reach H v x) ∧
  closed_under H (_plain_bfs H v).
Proof.
  intros Hv. unfold _plain_bfs.
  destruct (bfs_loop_spec v (S (length (nodes H))) [] [v]) as (HR1 & HR2 & HR3 & HR4).
  - split_and!; [constructor| |by intros ? ? ?%elem_of_nil].
    intros x [?%elem_of_nil|Hx%list_elem_of_singleton]; [done|].
    subst x. split; [done|constructor].
  - right. simpl. lia.
  - split_and!; [done| |done|done]. apply HR2. right. by left.
Qed.

Lemma cc_step_inv st v :
  cc_inv H st → v ∈ nodes H →
  cc_inv H (cc_step H st v) ∧ v ∈ (cc_step H st v).1 ∧
  (∀ x, x ∈ st.1 → x ∈ (cc_step H st v).1).
Proof.
  intros (Hcat & Hnd & Hcl & Hin & Hne) Hv. unfold cc_step.
  case_decide as Hseen; [by split_and!|]. simpl.
  destruct (plain_bfs_spec v Hv) as (HR1 & HR2 & HR3 & HR4).
  split_and!.
  - split_and!; simpl.
    + rewrite concat_app. simpl. rewrite app_nil_r. by f_equal.
    + apply NoDup_app. split_and!; [done| |done].
      intros x Hx Hx'. apply Hseen.
      apply (closed_under_reach st.1 x v); [done|done|].
      apply reach_sym. by apply HR3.
    + intros a x [Ha|Ha]%elem_of_app Hx; apply elem_of_app.
      * left. by eapply Hcl.
      * right. by eapply HR4.
    + intros x [Hx|Hx]%elem_of_app; [by apply Hin|by apply HR3].
    + apply Forall_app. split; [done|]. constructor; [|constructor].
      intros Hnil. rewrite Hnil in HR2. by apply elem_of_nil in HR2.
  - apply elem_of_app. by right.
  - intros x Hx. apply elem_of_app. by left.
Qed.

Lemma cc_foldl_inv st ns :
  cc_inv H st → (∀ v, v ∈ ns → v ∈ nodes H) →
  cc_inv H (foldl (cc_step H) st ns) ∧
  (∀ x, x ∈ st.1 ∨ x ∈ ns → x ∈ (foldl (cc_step H) st ns).1).
Proof.
  revert st. induction ns as [|v ns IH]; intros st Hinv Hns; simpl.
  - split; [done|]. by intros x [?|?%elem_of_nil].
  - destruct (cc_step_inv st v Hinv) as (Hinv' & Hv & Hmono); [apply Hns; by left|].
    destruct (IH (cc_step H st v) Hinv') as (Hinv'' & Hcov).
    { intros w Hw. apply Hns. by right. }
    split; [done|]. intros x [Hx|[->|Hx]%elem_of_cons]; apply Hcov; eauto.
Qed.

(** The components are non-empty, pairwise disjoint, and cover exactly the
    nodes. *)
Lemma connected_components_spec :
  NoDup (concat (connected_components H)) ∧
  Forall (λ c, c ≠ []) (connected_components H) ∧
  (∀ x, x ∈ concat (connected_components H) ↔ x ∈ nodes H).
Proof.
  unfold connected_components.
  destruct (cc_foldl_inv ([], []) (nodes H)) as ((Hcat & Hnd & Hcl & Hin & Hne) & Hcov).
  - split_and!; simpl; [done|constructor|by intros ? ? ?%elem_of_nil
                       |by intros ? ?%elem_of_nil|constructor].
  - done.
  - rewrite <- Hcat. split_and!; [done|done|].
    intros x. split; [apply Hin|]. intros Hx. apply Hcov. by right.
Qed.

End components.

(** ** The local strategy's contract *)

Lemma resolve_local_components :
  resolve_local (Named "components") = Some components_strategy.
Proof. done. Qed.

Lemma enumerate_lookup {A} (l : list A) i kv :
  enumerate l !! i = Some kv ↔ ∃ c, l !! i = Some c ∧ kv = (i, c).
Proof.
  unfold enumerate. rewrite list_lookup_imap.
  destruct (l !! i) as [c|]; simpl; split.
  - intros [= <-]. eauto.
  - by intros (c' & [= <-] & ->).
  - done.
  - by intros (c' & ? & _).
Qed.

Lemma elem_of_enumerate {A} (l : list A) kv :
  kv ∈ enumerate l ↔ l !! kv.1 = Some kv.2.
Proof.
  rewrite list_elem_of_lookup. split.
  - intros (i & (c & Hc & ->)%enumerate_lookup). done.
  - intros Hkv. exists kv.1. apply enumerate_lookup. exists kv.2.
    split; [done|]. by destruct kv.
Qed.

Lemma NoDup_concat_lookup {A} (ls : list (list A)) i j l l' x :
  NoDup (concat ls) → ls !! i = Some l → ls !! j = Some l' →
  x ∈ l → x ∈ l' → i = j.
Proof.
  revert i j. induction ls as [|l0 ls IH]; intros i j Hnd Hi Hj Hx Hx'; [done|].
  simpl in Hnd. apply NoDup_app in Hnd as (_ & Hdisj & Hnd).
  destruct i as [|i], j as [|j]; simpl in *.
  - done.
  - injection Hi as ->. destruct (Hdisj x Hx). apply elem_of_concat.
    exists l'. split; [done|]. by eapply list_elem_of_lookup_2.
  - injection Hj as ->. destruct (Hdisj x Hx'). apply elem_of_concat.
    exists l. split; [done|]. by eapply list_elem_of_lookup_2.
  - f_equal. by eapply IH.
Qed.

Section ego_nets.
Variables (G : Graph) (n : node).
Hypothesis Hwf : graph_wf G.
Hypothesis Hn : n ∈ nodes G.

Lemma elem_of_nodes_ego x :
  x ∈ nodes (subgraph G (neighbors G n)) ↔ x ∈ neighbors G n.
Proof.
  simpl. rewrite list_elem_of_filter. split; [by intros [? _]|].
  intros Hx. split; [done|]. by destruct (graph_wf_sym G n x Hwf Hn Hx).
Qed.

Lemma elem_of_neighbors_ego u x :
  x ∈ neighbors (subgraph G (neighbors G n)) u ↔
  u ∈ neighbors G n ∧ x ∈ neighbors G n ∧ x ∈ neighbors G u.
Proof.
  unfold neighbors at 1. simpl. case_decide as Hu.
  - rewrite list_elem_of_fmap. split.
    + intros ([x' d] & -> & [Hx Hd]%list_elem_of_filter). simpl in *.
      split_and!; [done|done|]. apply list_elem_of_fmap. by exists (x', d).
    + intros (_ & Hx & ([x' d] & -> & Hd)%list_elem_of_fmap).
      exists (x', d). split; [done|]. by apply list_elem_of_filter.
  - split; [by intros ?%elem_of_nil|]. by intros [? _].
Qed.

(** The connected components of an ego-net meet the contract. *)
Lemma components_contract :
  local_contract G n (clusters_of components_strategy G n).
Proof.
  unfold clusters_of, components_strategy.
  destruct (connected_components_spec (subgraph G (neighbors G n)))
    as (Hnd & Hne & Hcov).
  - simpl. apply NoDup_filter. by apply graph_wf_nodes.
  - intros u x (_ & Hx & _)%elem_of_neighbors_ego. by apply elem_of_nodes_ego.
  - intros u x (Hu & Hx & Hux)%elem_of_neighbors_ego.
    apply elem_of_neighbors_ego. split_and!; [done|done|].
    assert (u ∈ nodes G) as Hun by (by destruct (graph_wf_sym G n u Hwf Hn Hu)).
    by destruct (graph_wf_sym G u x Hwf Hun Hux).
  - split_and!.
    + intros kv Hkv%elem_of_enumerate. rewrite Forall_forall in Hne.
      apply Hne. by eapply list_elem_of_lookup_2.
    + intros kv v Hkv%elem_of_enumerate Hv. apply elem_of_nodes_ego, Hcov.
      apply elem_of_concat. exists kv.2. split; [done|].
      by eapply list_elem_of_lookup_2.
    + intros v Hv. apply elem_of_nodes_ego, Hcov, elem_of_concat in Hv
        as (c & Hv & [i Hi]%list_elem_of_lookup).
      exists (i, c). split; [by apply elem_of_enumerate|done].
    + intros i j kv kv' v (c & Hc & ->)%enumerate_lookup
                          (c' & Hc' & ->)%enumerate_lookup Hv Hv'.
      by eapply (NoDup_concat_lookup _ i j c c' v).
Qed.

End ego_nets.

(** ** Persona edges of a fitted object *)

Lemma Forall2_elem_of_r {A B} (R : A → B → Prop) xs ys y :
  Forall2 R xs ys → y ∈ ys → ∃ x, x ∈ xs ∧ R x y.
Proof.
  intros HR [i Hi]%list_elem_of_lookup.
  destruct (Forall2_lookup_r _ _ _ _ _ HR Hi) as (x & Hx & Hxy).
  exists x. split; [by eapply list_elem_of_lookup_2|done].
Qed.

Lemma Forall2_elem_of_l {A B} (R : A → B → Prop) xs ys x :
  Forall2 R xs ys → x ∈ xs → ∃ y, y ∈ ys ∧ R x y.
Proof.
  intros HR [i Hi]%list_elem_of_lookup.
  destruct (Forall2_lookup_l _ _ _ _ _ HR Hi) as (y & Hy & Hxy).
  exists y. split; [by eapply list_elem_of_lookup_2|done].
Qed.

Lemma Forall2_NoDup_fmap {A B C D} (R : A → B → Prop) (h : A → C) (g : B → D) xs ys :
  Forall2 R xs ys → NoDup (h <$> xs) →
  (∀ x y x' y', x ∈ xs → x' ∈ xs → R x y → R x' y' → g y = g y' → h x = h x') →
  NoDup (g <$> ys).
Proof.
  induction 1 as [|x y xs ys Hxy HR IH]; intros Hnd Hinj; [constructor|].
  rewrite fmap_cons in *. apply NoDup_cons in Hnd as [Hx Hnd]. apply NoDup_cons. split.
  - intros (y' & Hg & Hy')%list_elem_of_fmap.
    destruct (Forall2_elem_of_r _ _ _ _ HR Hy') as (x' & Hx' & Hxy').
    apply Hx. apply list_elem_of_fmap. exists x'. split; [|done].
    apply (Hinj x y x' y'); [by left|by right|done|done|done].
  - apply IH; [done|]. intros x1 y1 x2 y2 H1 H2. apply Hinj; by right.
Qed.

Lemma NoDup_fmap_agree {A B} (h : A → B) (l : list A) x y :
  NoDup (h <$> l) → x ∈ l → y ∈ l → h x = h y → x = y.
Proof.
  induction l as [|a l IH]; [by intros _ ?%elem_of_nil|].
  rewrite fmap_cons.
  intros [Ha Hnd]%NoDup_cons [->|Hx]%elem_of_cons [->|Hy]%elem_of_cons Heq.
  - done.
  - destruct Ha. rewrite Heq. by apply list_elem_of_fmap_2.
  - destruct Ha. rewrite <- Heq. by apply list_elem_of_fmap_2.
  - by apply IH.
Qed.

Lemma persona_edge_for_inv weight c e pe :
  persona_edge_for weight c e = Some pe →
  lookup_component c e.1.1 e.1.2 = Some (ends pe).1 ∧
  lookup_component c e.1.2 e.1.1 = Some (ends pe).2 ∧
  edge_attrs pe = emitted_attrs weight e.2.
Proof.
  unfold persona_edge_for, emitted_attrs.
  destruct (lookup_component c e.1.1 e.1.2) as [pu|]; simpl; [|done].
  destruct (lookup_component c e.1.2 e.1.1) as [pv|]; simpl; [|done].
  intros [= <-]. destruct weight as [key|]; [|done].
  by destruct (e.2 !! key).
Qed.

Section persona_edge_facts.
Context `{External}.
Variables (s s' : EgoNetSplitter) (G : Graph) (f : local_strategy)
          (parts : list (nat * nat)).
Hypothesis Hwf : graph_wf G.
Hypothesis Hfit : fitted s G s' f parts.

Let Hnodes : NoDup (nodes G) := graph_wf_nodes G Hwf.

Lemma fitted_edges_Forall2 :
  Forall2 (λ e pe, persona_edge_for (weight s) (components s') e = Some pe)
          (edges G) (persona_graph_edges s').
Proof. apply mapM_Some. apply (fitted_edges _ _ _ _ _ Hfit). Qed.

Lemma edges_nodes u v d :
  (u, v, d) ∈ edges G → u ∈ nodes G ∧ v ∈ nodes G.
Proof.
  intros [Hu Hd]%edges_adj. split; [done|].
  by destruct (graph_wf_adj G u v d Hwf Hu Hd).
Qed.

Lemma fitted_edge_owners e pe :
  e ∈ edges G →
  persona_edge_for (weight s) (components s') e = Some pe →
  personality_map s' !! (ends pe).1 = Some e.1.1 ∧
  personality_map s' !! (ends pe).2 = Some e.1.2.
Proof.
  destruct e as [[u v] d]. intros [Hu Hv]%edges_nodes (H1 & H2 & _)%persona_edge_for_inv.
  simpl in *. split.
  - apply (fitted_owner s s' G f parts Hnodes Hfit). split; [done|].
    by apply (fitted_component_owner s s' G f parts Hnodes Hfit u v).
  - apply (fitted_owner s s' G f parts Hnodes Hfit). split; [done|].
    by apply (fitted_component_owner s s' G f parts Hnodes Hfit v u).
Qed.

(** Different original edges get different persona pairs. *)
Lemma fitted_edges_NoDup :
  NoDup (norm_pair ∘ ends <$> persona_graph_edges s').
Proof.
  eapply (Forall2_NoDup_fmap _ (λ e, norm_pair e.1));
    [apply fitted_edges_Forall2|by apply edges_NoDup|].
  intros e pe e' pe' He He' Hpe Hpe' Heq.
  destruct (fitted_edge_owners e pe He Hpe) as [H1 H2].
  destruct (fitted_edge_owners e' pe' He' Hpe') as [H1' H2'].
  simpl in Heq. destruct (ends pe) as [a b], (ends pe') as [a' b'].
  destruct e as [[u v] d], e' as [[u' v'] d']. simpl in *.
  apply norm_pair_eq. apply norm_pair_eq in Heq as [[-> ->]|[-> ->]].
  - left. split; congruence.
  - right. split; congruence.
Qed.

Lemma fitted_number_of_edges :
  number_of_edges (persona_graph s') = number_of_edges G.
Proof.
  rewrite (fitted_persona_graph _ _ _ _ _ Hfit).
  rewrite from_edgelist_number_of_edges by apply fitted_edges_NoDup.
  symmetry. apply (Forall2_length _ _ _ fitted_edges_Forall2).
Qed.

(** The persona edge of an original edge, as the persona graph holds it. *)
Lemma fitted_edge_image u v d :
  (u, v, d) ∈ edges G →
  ∃ pu pv,
    lookup_component (components s') u v = Some pu ∧
    lookup_component (components s') v u = Some pv ∧
    ((pu, pv, emitted_attrs (weight s) d) ∈ edges (persona_graph s') ∨
     (pv, pu, emitted_attrs (weight s) d) ∈ edges (persona_graph s')).
Proof.
  intros He.
  destruct (Forall2_elem_of_l _ _ _ _ fitted_edges_Forall2 He) as (pe & Hpe & Hfor).
  destruct (persona_edge_for_inv _ _ _ _ Hfor) as (H1 & H2 & H3). simpl in *.
  exists (ends pe).1, (ends pe).2. split_and!; [done|done|].
  rewrite <- H3, (fitted_persona_graph _ _ _ _ _ Hfit).
  destruct (from_edgelist_linked _ pe fitted_edges_NoDup Hpe) as [Hn Hadj].
  by apply adj_edges; [apply from_edgelist_wf|..].
Qed.

Lemma fitted_edge_nodes u v d :
  (u, v, d) ∈ edges G →
  ∃ pu pv,
    lookup_component (components s') u v = Some pu ∧
    lookup_component (components s') v u = Some pv ∧
    pu ∈ nodes (persona_graph s') ∧ pv ∈ nodes (persona_graph s').
Proof.
  intros He.
  destruct (Forall2_elem_of_l _ _ _ _ fitted_edges_Forall2 He) as (pe & Hpe & Hfor).
  destruct (persona_edge_for_inv _ _ _ _ Hfor) as (H1 & H2 & H3). simpl in *.
  exists (ends pe).1, (ends pe).2. split_and!; [done|done|..];
    rewrite (fitted_persona_graph _ _ _ _ _ Hfit);
    apply elem_of_nodes_foldl_add; right; exists pe; eauto.
Qed.

End persona_edge_facts.

Lemma graph_wf_by_compute (G : Graph) :
  bool_decide (graph_wf G) = true → graph_wf G.
Proof. intros Hb. apply bool_decide_eq_true in Hb. exact Hb. Qed.

Lemma run_ok (r : EgoNetSplitter * result unit) : r.2 = Ok tt → r = (r.1, Ok tt).
Proof. destruct r as [s' [[]|e]]; simpl; congruence. Qed.

Lemma local_ok_contract s G n f :
  graph_wf G → n ∈ nodes G →
  local_ok s G n →
  resolve_local (method_local s) = Some f →
  local_contract G n (clusters_of f G n).
Proof.
  intros Hwf Hn [Hm|(g & Hm & Hg)]; rewrite Hm.
  - rewrite resolve_local_components. intros [= <-]. by apply components_contract.
  - simpl. by intros [= <-].
Qed.

Lemma fitted_resolved `{External} s G s' f parts n :
  fitted s G s' f parts → n ∈ nodes G →
  resolve_local (method_local s) = Some f.
Proof.
  intros Hfit Hn. destruct (fitted_local _ _ _ _ _ Hfit) as [?|Hnil]; [done|].
  rewrite Hnil in Hn. by apply elem_of_nil in Hn.
Qed.

Lemma fitted_get_memberships `{External} s G s' f parts :
  fitted s G s' f parts →
  ∃ o, get_memberships s' = (s', Ok o) ∧ overlapping_partitions s' = Some o.
Proof.
  intros Hfit. destruct (fitted_memberships _ _ _ _ _ Hfit) as (o & _ & Ho).
  exists o. split; [|done].
  unfold get_memberships, get_overlapping_partitions. munfold. by rewrite Ho.
Qed.

(** ** Coverage of the neighbours by the clusters *)

Lemma covers_iff g G :
  covers g G ↔
  ∀ u v, u ∈ nodes G → v ∈ neighbors G u →
         ∃ kv, kv ∈ clusters_of g G u ∧ v ∈ kv.2.
Proof.
  unfold covers. rewrite Forall_forall. split.
  - intros Hall u v Hu Hv. specialize (Hall u Hu). rewrite Forall_forall in Hall.
    by apply Exists_exists, Hall.
  - intros Hall u Hu. apply Forall_forall. intros v Hv.
    apply Exists_exists. by apply Hall.
Qed.

Lemma components_cover G : graph_wf G → covers components_strategy G.
Proof.
  intros Hwf. apply covers_iff. intros u v Hu Hv.
  destruct (components_contract G u Hwf Hu) as (_ & _ & Hcov & _). by apply Hcov.
Qed.

Section coverage.
Variables (f : local_strategy) (G : Graph).
Hypothesis Hwf : graph_wf G.

Lemma lookup_component_is_Some u v :
  u ∈ nodes G →
  is_Some (lookup_component (egonets f G (nodes G)).1.1 u v) ↔
  ∃ kv, kv ∈ clusters_of f G u ∧ v ∈ kv.2.
Proof.
  intros Hu. unfold lookup_component.
  rewrite egonets_components by (by apply graph_wf_nodes || done). simpl.
  rewrite cluster_map_is_Some, lookup_empty. split; [|by right].
  by intros [[? ?]|?].
Qed.

Lemma covered_persona_edges w :
  covers f G →
  is_Some (persona_edges w (egonets f G (nodes G)).1.1 (edges G)).
Proof.
  rewrite covers_iff. intros Hcov. unfold persona_edges.
  apply mapM_is_Some, Forall_forall. intros [[u v] d] He.
  destruct (edges_adj G u v d He) as [Hu Hd].
  destruct (graph_wf_adj G u v d Hwf Hu Hd) as [Hv Hd'].
  assert (v ∈ neighbors G u) as Huv by (apply list_elem_of_fmap; by exists (v, d)).
  assert (u ∈ neighbors G v) as Hvu by (apply list_elem_of_fmap; by exists (u, d)).
  destruct (proj2 (lookup_component_is_Some u v Hu) (Hcov u v Hu Huv)) as [pu Hpu].
  destruct (proj2 (lookup_component_is_Some v u Hv) (Hcov v u Hv Hvu)) as [pv Hpv].
  unfold persona_edge_for. simpl. rewrite Hpu, Hpv. simpl. eauto.
Qed.

Lemma omitted_persona_edges w :
  ¬ covers f G →
  persona_edges w (egonets f G (nodes G)).1.1 (edges G) = None.
Proof.
  intros Hcov. destruct (persona_edges _ _ _) as [l|] eqn:Hl; [|done].
  destruct Hcov. apply covers_iff. intros u v Hu Hv.
  apply lookup_component_is_Some; [done|].
  apply mapM_Some in Hl.
  apply list_elem_of_fmap in Hv as ([v' d] & -> & Hd). simpl.
  destruct (adj_edges G u v' d Hwf Hu Hd) as [He|He];
    destruct (Forall2_elem_of_l _ _ _ _ Hl He) as (pe & _ & Hpe);
    apply persona_edge_for_inv in Hpe as (H1 & H2 & _); simpl in *; eauto.
Qed.

End coverage.

Lemma get_new_edge_ids_tuples `{External} s G l :
  persona_edges (weight s) (components s) (edges G) = Some l →
  Forall2 (λ e pe, _get_new_edge_ids e s = (s, Ok pe)) (edge_tuples (weight s) G) l.
Proof.
  intros Hl%mapM_Some. unfold edge_tuples.
  destruct (weight s) as [key|] eqn:Hw.
  - unfold edges_data. apply Forall2_fmap_l. eapply Forall2_impl; [done|].
    intros e pe Hpe. simpl. rewrite get_new_edge_ids_data by done. by rewrite Hpe.
  - unfold edges_nodata. apply Forall2_fmap_l. eapply Forall2_impl; [done|].
    intros e pe Hpe. simpl. rewrite get_new_edge_ids_nodata by done. by rewrite Hpe.
Qed.

(** [fit] reaches [_create_partitions] when the clusters cover the
    neighbours. *)
Lemma covered_fit `{External} s G f :
  graph_wf G →
  check_graph G = true →
  resolve_local (method_local s) = Some f →
  covers f G →
  ∃ s2 s3,
    _create_persona_graph s2 = (s3, Ok tt) ∧
    fit G s = _create_partitions (method_global s3) s3 ∧
    graph s3 = G ∧ weight s3 = weight s ∧
    components s3 = (egonets f G (nodes G)).1.1 ∧
    Forall2 (λ e pe, _get_new_edge_ids e s3 = (s3, Ok pe))
            (edge_tuples (weight s3) G) (persona_graph_edges s3).
Proof.
  intros Hwf Hck Hf Hcov. pose proof (graph_wf_nodes G Hwf) as Hnd.
  destruct (covered_persona_edges f G Hwf (weight s) Hcov) as [l Hl].
  exists (indexed f G s), (with_persona_graph l (indexed f G s)).
  assert (weight (indexed f G s) = weight s) as Hw2 by (by destruct s).
  assert (components (indexed f G s) = (egonets f G (nodes G)).1.1) as Hc2
    by (by destruct s).
  assert (graph (indexed f G s) = G) as Hg2 by (by destruct s).
  split_and!.
  - rewrite create_persona_graph_run, Hw2, Hc2, Hg2, Hl. done.
  - rewrite (fit_run G s f) by eauto. rewrite Hl. by destruct s.
  - by destruct s.
  - by destruct s.
  - by destruct s.
  - replace (persona_graph_edges (with_persona_graph l (indexed f G s))) with l
      by (by destruct s).
    apply get_new_edge_ids_tuples.
    replace (weight (with_persona_graph l (indexed f G s))) with (weight s)
      by (by destruct s).
    replace (components (with_persona_graph l (indexed f G s)))
      with (egonets f G (nodes G)).1.1 by (by destruct s).
    done.
Qed.

(** ** Personas seen by the partitioner *)

Section contract_facts.
Context `{External}.
Variables (s s' : EgoNetSplitter) (G : Graph) (f : local_strategy)
          (parts : list (nat * nat)) (n : node).
Hypothesis Hwf : graph_wf G.
Hypothesis Hfit : fitted s G s' f parts.
Hypothesis Hn : n ∈ nodes G.
Hypothesis Hcontract : local_contract G n (clusters_of f G n).

(** Under the contract every persona of [n] is the persona of [n] towards
    some neighbour. *)
Lemma contract_persona_seen p :
  p ∈ personas_of s' n →
  ∃ v, v ∈ neighbors G n ∧ lookup_component (components s') n v = Some p.
Proof.
  pose proof (graph_wf_nodes G Hwf) as Hnd.
  destruct Hcontract as (Hne & Hin & _ & Hdisj).
  unfold personas_of. rewrite (fitted_personas s s' G f parts Hnd Hfit n Hn). simpl.
  intros [Hlo Hhi]%elem_of_seq.
  destruct (lookup_lt_is_Some_2 (clusters_of f G n) (p - persona_base f G (nodes G) n))
    as [kv Hkv]; [lia|].
  assert (kv ∈ clusters_of f G n) as Hkv' by (by eapply list_elem_of_lookup_2).
  destruct (kv.2) as [|v l] eqn:Hl; [by destruct (Hne kv Hkv')|].
  assert (v ∈ kv.2) as Hv by (rewrite Hl; by left).
  exists v. split; [by eapply Hin|].
  unfold lookup_component.
  rewrite (fitted_components_node s s' G f parts Hnd Hfit n Hn). simpl.
  rewrite (cluster_map_lookup _ _ _ (p - persona_base f G (nodes G) n) kv v Hkv Hv).
  - f_equal. lia.
  - intros j kv' Hlt Hj Hv'.
    pose proof (Hdisj _ _ _ _ _ Hkv Hj Hv Hv'). lia.
Qed.

Lemma contract_persona_in_graph p :
  p ∈ personas_of s' n → p ∈ nodes (persona_graph s').
Proof.
  intros (v & ([v' d] & -> & Hd)%list_elem_of_fmap & Hp)%contract_persona_seen.
  simpl in Hp.
  destruct (adj_edges G n v' d Hwf Hn Hd) as [He|He];
    destruct (fitted_edge_nodes s s' G f parts Hfit _ _ _ He)
      as (pu & pv & Hpu & Hpv & Hinu & Hinv); congruence.
Qed.

End contract_facts.

(** ** Unrecognised strategy names *)

(** X1. An unrecognised local name is reported, by the first call of
    [_create_egonet]; an empty graph makes no such call. *)
Lemma unknown_local_name `{External} (s : EgoNetSplitter) (G : Graph) (name : string) :
  check_graph G = true →
  method_local s = Named name →
  name ≠ "components" →
  nodes G ≠ [] →
  ∃ s2, fit G s = (s2, Raise ValueError) ∧ overlapping_partitions s2 = overlapping_partitions s.
Proof.
  intros Hck Hm Hname Hn. eexists. split.
  - apply fit_unresolved; [done| |done]. rewrite Hm. simpl. by rewrite decide_False.
  - by destruct s.
Qed.


Lemma unknown_local_name_witness :
  ∃ s2,
    @fit example_external single_edge
      (init 1%Q 42 (Some "weight") (Named "louvain") (Named "louvain"))
    = (s2, Raise ValueError) ∧
    overlapping_partitions s2 = None.
Proof.
  apply (@unknown_local_name example_external
           (init 1%Q 42 (Some "weight") (Named "louvain") (Named "louvain"))
           single_edge "louvain").
  - vm_compute. reflexivity.
  - reflexivity.
  - discriminate.
  - discriminate.
Defined.


(** * The claims *)

(** C1. In weighted mode a completed [fit] leaves a persona graph with as
    many edges as the original graph: every original edge [(u, v)] with
    attributes [d] has the persona edge between [components[u][v]] and
    [components[v][u]], whose weight entry is that of [d] (absent when [d]
    has none), and two different original edges never share a persona
    edge. *)
Theorem weighted_persona_graph_edges `{External} (s s' : EgoNetSplitter)
    (G : Graph) (key : string) :
  graph_wf G →
  weight s = Some key →
  fit G s = (s', Ok tt) →
  number_of_edges (persona_graph s') = number_of_edges G ∧
  (∀ u v d, (u, v, d) ∈ edges G →
     ∃ pu pv dd,
       persona_pair (components s') u v = Some (pu, pv) ∧
       ((pu, pv, dd) ∈ edges (persona_graph s') ∨
        (pv, pu, dd) ∈ edges (persona_graph s')) ∧
       dd !! key = d !! key) ∧
  (∀ e1 e2, e1 ∈ edges G → e2 ∈ edges G →
     norm_pair <$> persona_pair (components s') e1.1.1 e1.1.2 =
     norm_pair <$> persona_pair (components s') e2.1.1 e2.1.2 →
     e1 = e2).
Proof.
  intros Hwf Hw Hfit.
  destruct (fit_inv G s s' (graph_wf_nodes G Hwf) Hfit) as (f & parts & Hfitted).
  split_and!.
  - by eapply fitted_number_of_edges.
  - intros u v d He.
    destruct (fitted_edge_image s s' G f parts Hwf Hfitted u v d He)
      as (pu & pv & Hpu & Hpv & Hin).
    exists pu, pv, (emitted_attrs (weight s) d). split_and!; [|done|].
    + unfold persona_pair. rewrite Hpu, Hpv. done.
    + rewrite Hw. simpl. destruct (d !! key) as [w|] eqn:Hd; [|done].
      apply lookup_singleton_eq.
  - intros e1 e2 He1 He2 Heq.
    pose proof (fitted_edges_Forall2 s s' G f parts Hfitted) as HF.
    destruct (Forall2_elem_of_l _ _ _ _ HF He1) as (pe1 & _ & Hpe1).
    destruct (Forall2_elem_of_l _ _ _ _ HF He2) as (pe2 & _ & Hpe2).
    destruct (fitted_edge_owners s s' G f parts Hwf Hfitted e1 pe1 He1 Hpe1) as [Ha1 Hb1].
    destruct (fitted_edge_owners s s' G f parts Hwf Hfitted e2 pe2 He2 Hpe2) as [Ha2 Hb2].
    apply persona_edge_for_inv in Hpe1 as (Hu1 & Hv1 & _).
    apply persona_edge_for_inv in Hpe2 as (Hu2 & Hv2 & _).
    unfold persona_pair in Heq. rewrite Hu1, Hv1, Hu2, Hv2 in Heq. simpl in Heq.
    injection Heq as Heq.
    apply (NoDup_fmap_agree (λ e, norm_pair e.1) (edges G)); [by apply edges_NoDup|done|done|].
    destruct e1 as [[u1 v1] d1], e2 as [[u2 v2] d2]. simpl in *.
    apply norm_pair_eq. apply norm_pair_eq in Heq as [[Ha Hb]|[Ha Hb]].
    + left. rewrite Ha in Ha1. rewrite Hb in Hb1. split; congruence.
    + right. rewrite Ha in Ha1. rewrite Hb in Hb1. split; congruence.
Qed.

Lemma weighted_persona_graph_edges_witness :
  number_of_edges
    (persona_graph (@fit example_external weighted_path default_estimator).1)
  = number_of_edges weighted_path.
Proof.
  apply (@weighted_persona_graph_edges example_external default_estimator
           (@fit example_external weighted_path default_estimator).1
           weighted_path "weight").
  - apply from_edgelist_wf.
  - reflexivity.
  - apply run_ok. vm_compute. reflexivity.
Defined.



(** C3, as the code has it. The membership list of a node holds the
    community ids of the node's personas in the order in which the
    partition dictionary lists them:
    [[c for (p, c) in partitions.items() if p in personalities[n]]]. *)
Theorem membership_order `{External} (s s' : EgoNetSplitter) (G : Graph)
    (parts : list (nat * nat)) :
  graph_wf G →
  fit G s = (s', Ok tt) →
  partitions s' = Some parts →
  ∃ o, get_memberships s' = (s', Ok o) ∧
       ∀ n, n ∈ nodes G →
            o !! n = Some (filter (λ it, it.1 ∈ personas_of s' n) parts).*2.
Proof.
  intros Hwf Hfit Hparts. pose proof (graph_wf_nodes G Hwf) as Hnd.
  destruct (fit_inv G s s' Hnd Hfit) as (f & parts' & Hfitted).
  assert (parts' = parts) as ->.
  { pose proof (fitted_partitions _ _ _ _ _ Hfitted). congruence. }
  destruct (fitted_get_memberships _ _ _ _ _ Hfitted) as (o & Hget & Ho).
  exists o. split; [done|]. intros n Hn.
  rewrite (fitted_membership s s' G f parts Hfitted o n Ho Hn). do 2 f_equal.
  apply list_filter_iff. intros it.
  rewrite (fitted_owner s s' G f parts Hnd Hfitted). tauto.
Qed.

Lemma membership_order_witness :
  ∃ o, get_memberships (@fit example_external star_graph shuffled_estimator).1
       = ((@fit example_external star_graph shuffled_estimator).1, Ok o) ∧
       ∀ n, n ∈ nodes star_graph →
            o !! n =
            Some (filter
                    (λ it, it.1 ∈ personas_of
                               (@fit example_external star_graph shuffled_estimator).1 n)
                    [(1, 1); (0, 0); (2, 0); (3, 1)]).*2.
Proof.
  apply (@membership_order example_external shuffled_estimator
           (@fit example_external star_graph shuffled_estimator).1 star_graph).
  - apply graph_wf_by_compute. vm_compute. reflexivity.
  - apply run_ok. vm_compute. reflexivity.
  - vm_compute. reflexivity.
Defined.

(** C3, as stated, fails: on [star_graph] the centre 0 owns the personas
    [[0; 1]], created in that order, and the partition assigns them the
    communities 0 and 1, yet its membership list is [[1; 0]], the order of
    the partition dictionary. *)
Lemma membership_follows_partition_order :
  (@fit example_external star_graph shuffled_estimator).2 = Ok tt ∧
  personalities (@fit example_external star_graph shuffled_estimator).1 !! 0
    = Some [0; 1] ∧
  partitions (@fit example_external star_graph shuffled_estimator).1
    = Some [(1, 1); (0, 0); (2, 0); (3, 1)] ∧
  (overlapping_partitions (@fit example_external star_graph shuffled_estimator).1
     ≫= λ o, o !! 0) = Some [1; 0] ∧
  omap (λ p, (list_to_map [(1, 1); (0, 0); (2, 0); (3, 1)] : gmap nat nat) !! p) [0; 1]
    = [0; 1] ∧
  [1; 0] ≠ [0; 1].
Proof.
  split_and!; [vm_compute; reflexivity..|discriminate].
Qed.

(** C4. With the built-in ['components'] strategy, on every graph that
    passes the graph check, [_create_persona_graph] returns normally: each
    call of [_get_new_edge_ids] it makes returns a persona edge, both
    subscripts [components[u][v]] and [components[v][u]] are present for
    every edge, and [fit] goes on to [_create_partitions]. *)
Theorem components_lookups_succeed `{External} (s : EgoNetSplitter) (G : Graph) :
  graph_wf G →
  check_graph G = true →
  method_local s = Named "components" →
  ∃ s2 s3,
    _create_persona_graph s2 = (s3, Ok tt) ∧
    fit G s = _create_partitions (method_global s3) s3 ∧
    graph s3 = G ∧ weight s3 = weight s ∧
    Forall2 (λ e pe, _get_new_edge_ids e s3 = (s3, Ok pe))
            (edge_tuples (weight s3) G) (persona_graph_edges s3) ∧
    ∀ u v d, (u, v, d) ∈ edges G →
             is_Some (lookup_component (components s3) u v) ∧
             is_Some (lookup_component (components s3) v u).
Proof.
  intros Hwf Hck Hm.
  destruct (covered_fit s G components_strategy Hwf Hck) as
    (s2 & s3 & Hrun & Hfit & Hg & Hw & Hc & Hall).
  { rewrite Hm. apply resolve_local_components. }
  { by apply components_cover. }
  exists s2, s3. split_and!; [done|done|done|done|done|].
  intros u v d He. rewrite Hc.
  destruct (edges_adj G u v d He) as [Hu Hd].
  destruct (graph_wf_adj G u v d Hwf Hu Hd) as [Hv Hd'].
  pose proof (components_cover G Hwf) as Hcov. rewrite covers_iff in Hcov.
  split; apply lookup_component_is_Some; try done; apply Hcov; try done.
  - apply list_elem_of_fmap. by exists (v, d).
  - apply list_elem_of_fmap. by exists (u, d).
Qed.

Lemma components_lookups_succeed_witness :
  ∃ s2 s3,
    @_create_persona_graph s2 = (s3, Ok tt) ∧
    @fit example_external star_graph default_estimator
      = @_create_partitions example_external (method_global s3) s3 ∧
    graph s3 = star_graph ∧ weight s3 = weight default_estimator ∧
    Forall2 (λ e pe, _get_new_edge_ids e s3 = (s3, Ok pe))
            (edge_tuples (weight s3) star_graph) (persona_graph_edges s3) ∧
    ∀ u v d, (u, v, d) ∈ edges star_graph →
             is_Some (lookup_component (components s3) u v) ∧
             is_Some (lookup_component (components s3) v u).
Proof.
  apply (@components_lookups_succeed example_external default_estimator star_graph).
  - apply graph_wf_by_compute. vm_compute. reflexivity.
  - vm_compute. reflexivity.
  - reflexivity.
Defined.

(** C5, as the code has it. [fit] never inspects the clusters of a custom
    local strategy.  When they cover every neighbour of every node - be it
    with foreign nodes or with a neighbour in several clusters - the
    persona graph is built and [fit] goes on to [_create_partitions]; when
    a neighbour is left out, [fit] stops with the [KeyError] of the missed
    subscript in [_get_new_edge_ids]. *)
Theorem custom_strategy_unchecked `{External} (s : EgoNetSplitter) (G : Graph)
    (g : local_strategy) :
  graph_wf G →
  check_graph G = true →
  method_local s = Callable g →
  (covers g G →
   ∃ s2 s3,
     _create_persona_graph s2 = (s3, Ok tt) ∧
     fit G s = _create_partitions (method_global s3) s3 ∧
     Forall2 (λ e pe, _get_new_edge_ids e s3 = (s3, Ok pe))
             (edge_tuples (weight s3) G) (persona_graph_edges s3)) ∧
  (¬ covers g G → ∃ s2, fit G s = (s2, Raise KeyError)).
Proof.
  intros Hwf Hck Hm.
  assert (resolve_local (method_local s) = Some g) as Hg by (by rewrite Hm).
  split.
  - intros Hcov.
    destruct (covered_fit s G g Hwf Hck Hg Hcov) as
      (s2 & s3 & Hrun & Hfit & _ & _ & _ & Hall).
    by exists s2, s3.
  - intros Hcov. exists (indexed g G s).
    rewrite (fit_run G s g) by (eauto using graph_wf_nodes).
    by rewrite (omitted_persona_edges g G Hwf (weight s) Hcov).
Qed.

Lemma custom_strategy_unchecked_witness :
  ∃ s2,
    @fit example_external single_edge
      (init 1%Q 42 (Some "weight") (Callable empty_strategy) (Named "louvain"))
    = (s2, Raise KeyError).
Proof.
  apply (@custom_strategy_unchecked example_external
           (init 1%Q 42 (Some "weight") (Callable empty_strategy) (Named "louvain"))
           single_edge empty_strategy).
  - apply from_edgelist_wf.
  - vm_compute. reflexivity.
  - reflexivity.
  - apply (bool_decide_eq_false_1 (covers empty_strategy single_edge)).
    vm_compute. reflexivity.
Defined.

(** C5, as stated, fails: [overlapping_strategy] references the foreign
    node 7 and puts the neighbour 1 of node 0 into two clusters, and [fit]
    completes without any error. *)
Lemma contract_violation_accepted :
  clusters_of overlapping_strategy single_edge 0 = [(0, [1; 7]); (1, [1])] ∧
  neighbors single_edge 0 = [1] ∧
  (@fit example_external single_edge
     (init 1%Q 42 (Some "weight") (Callable overlapping_strategy) (Named "louvain"))).2
    = Ok tt.
Proof.
  split_and!; vm_compute; reflexivity.
Qed.

(** C6, at a failing input: with the unrecognised global strategy name
    ["leiden"] a first [fit] on the edge 0 - 1 raises no error about the
    name; [self.partitions] stays unassigned, the read of it raises
    [AttributeError], and the memberships dictionary has already been
    written. *)
Lemma unknown_global_name_unreported :
  (@fit example_external (from_edgelist [PE2 0 1])
     (init 1%Q 42 (Some "weight") (Named "components") (Named "leiden"))).2
    = Raise AttributeError ∧
  overlapping_partitions
    (@fit example_external (from_edgelist [PE2 0 1])
       (init 1%Q 42 (Some "weight") (Named "components") (Named "leiden"))).1
    = Some {[ 0 := []; 1 := [] ]}.
Proof.
  split; vm_compute; reflexivity.
Qed.

(** C7, as the code has it. Every persona edge [_create_persona_graph]
    emits is a plain pair when weighting is disabled, and also when
    weighting is enabled and the original edge has no entry under the
    weight key: no default weight is written.  Only an original edge that
    has a weight yields a triple, carrying that weight. *)
Theorem emitted_persona_edges `{External} (s s' : EgoNetSplitter) (G : Graph) :
  graph_wf G →
  fit G s = (s', Ok tt) →
  Forall2
    (λ e pe, ∃ pu pv,
       persona_pair (components s') e.1.1 e.1.2 = Some (pu, pv) ∧
       pe = match weight s with
            | None => PE2 pu pv
            | Some key =>
                match e.2 !! key with
                | None => PE2 pu pv
                | Some w => PE3 pu pv {[ key := w ]}
                end
            end)
    (edges G) (persona_graph_edges s').
Proof.
  intros Hwf Hfit. pose proof (graph_wf_nodes G Hwf) as Hnd.
  destruct (fit_inv G s s' Hnd Hfit) as (f & parts & Hfitted).
  eapply Forall2_impl; [by eapply fitted_edges_Forall2|].
  intros e pe. unfold persona_edge_for, persona_pair.
  destruct (lookup_component (components s') e.1.1 e.1.2) as [pu|]; simpl; [|done].
  destruct (lookup_component (components s') e.1.2 e.1.1) as [pv|]; simpl; [|done].
  intros [= <-]. eauto.
Qed.

Lemma emitted_persona_edges_witness :
  Forall2
    (λ e pe, ∃ pu pv,
       persona_pair
         (components (@fit example_external weighted_path default_estimator).1)
         e.1.1 e.1.2 = Some (pu, pv) ∧
       pe = match weight default_estimator with
            | None => PE2 pu pv
            | Some key =>
                match e.2 !! key with
                | None => PE2 pu pv
                | Some w => PE3 pu pv {[ key := w ]}
                end
            end)
    (edges weighted_path)
    (persona_graph_edges (@fit example_external weighted_path default_estimator).1).
Proof.
  apply (@emitted_persona_edges example_external default_estimator
           (@fit example_external weighted_path default_estimator).1 weighted_path).
  - apply from_edgelist_wf.
  - apply run_ok. vm_compute. reflexivity.
Defined.

(** C7, as stated, fails: with the default weight key ["weight"], the edge
    1 - 2 of [weighted_path] has no weight, and the persona edge emitted
    for it is the pair [(2, 3)], stored in the persona graph with an empty
    attribute dictionary, not with weight 1. *)
Lemma missing_weight_gets_no_default :
  weight default_estimator = Some "weight" ∧
  (1, 2, ∅) ∈ edges weighted_path ∧
  persona_graph_edges (@fit example_external weighted_path default_estimator).1
    = [PE3 0 1 {[ "weight" := 5%Z ]}; PE2 2 3] ∧
  edge_data (persona_graph (@fit example_external weighted_path default_estimator).1) 2 3
    = Some ∅ ∧
  PE2 2 3 ≠ PE3 2 3 {[ "weight" := 1%Z ]}.
Proof.
  split_and!.
  - reflexivity.
  - vm_compute. right. left.
  - vm_compute. reflexivity.
  - vm_compute. reflexivity.
  - discriminate.
Qed.

(** C8. After a completed [fit], [personality_map] is defined exactly on
    the allocated ids [0 .. index - 1], it sends a persona to the one node
    whose [personalities] list holds it, every node has one persona per
    cluster of its ego-net, and the lists of all nodes, put together in node
    order, are [0, 1, ..., index - 1]: no gap and no repeat, so no id is
    used for two nodes or two clusters. *)
Theorem persona_ids_contiguous `{External} (s s' : EgoNetSplitter) (G : Graph) :
  graph_wf G →
  fit G s = (s', Ok tt) →
  (∀ p, is_Some (personality_map s' !! p) ↔ p < index s') ∧
  (∀ p n, personality_map s' !! p = Some n ↔
          n ∈ nodes G ∧ ∃ ps, personalities s' !! n = Some ps ∧ p ∈ ps) ∧
  (∀ n, n ∈ nodes G ↔ is_Some (personalities s' !! n)) ∧
  (∀ n f, n ∈ nodes G → resolve_local (method_local s) = Some f →
          length (default [] (personalities s' !! n)) = length (clusters_of f G n)) ∧
  concat ((λ n, default [] (personalities s' !! n)) <$> nodes G) = seq 0 (index s').
Proof.
  intros Hwf Hfit. pose proof (graph_wf_nodes G Hwf) as Hnd.
  destruct (fit_inv G s s' Hnd Hfit) as (f & parts & Hfitted).
  split_and!.
  - intros p. by eapply fitted_owner_total.
  - intros p n. rewrite (fitted_owner s s' G f parts Hnd Hfitted). unfold personas_of.
    split.
    + intros [Hn Hp]. split; [done|].
      rewrite (fitted_personas s s' G f parts Hnd Hfitted n Hn) in *. eauto.
    + intros [Hn (ps & Hps & Hp)]. rewrite Hps. done.
  - intros n. split.
    + intros Hn. rewrite (fitted_personas s s' G f parts Hnd Hfitted n Hn). eauto.
    + intros Hsome. destruct (decide (n ∈ nodes G)) as [|Hn]; [done|].
      rewrite (fitted_personalities _ _ _ _ _ Hfitted) in Hsome.
      destruct (egonets_outside f G (nodes G) n Hnd Hn) as [_ Hnone].
      rewrite Hnone in Hsome. by destruct Hsome.
  - intros n f' Hn Hf'.
    pose proof (fitted_resolved _ _ _ _ _ n Hfitted Hn) as Hf.
    assert (f' = f) as -> by congruence.
    apply (fitted_personas_length s s' G f parts Hnd Hfitted n Hn).
  - by apply (fitted_persona_range s s' G f parts Hnd Hfitted).
Qed.

Lemma persona_ids_contiguous_witness :
  concat ((λ n, default []
             (personalities (@fit example_external star_graph default_estimator).1 !! n))
          <$> nodes star_graph)
  = seq 0 (index (@fit example_external star_graph default_estimator).1).
Proof.
  apply (@persona_ids_contiguous example_external default_estimator
           (@fit example_external star_graph default_estimator).1 star_graph).
  - apply graph_wf_by_compute. vm_compute. reflexivity.
  - apply run_ok. vm_compute. reflexivity.
Defined.



(** C10. After a completed [fit], the dictionary [get_memberships] returns
    has exactly the nodes of the input graph as its keys, the nodes without
    personas included. *)
Theorem memberships_keys `{External} (s s' : EgoNetSplitter) (G : Graph) :
  graph_wf G →
  fit G s = (s', Ok tt) →
  ∃ o, get_memberships s' = (s', Ok o) ∧ dom o = list_to_set (nodes G).
Proof.
  intros Hwf Hfit. pose proof (graph_wf_nodes G Hwf) as Hnd.
  destruct (fit_inv G s s' Hnd Hfit) as (f & parts & Hfitted).
  destruct (fitted_get_memberships _ _ _ _ _ Hfitted) as (o & Hget & Ho).
  exists o. split; [done|]. by eapply fitted_membership_dom.
Qed.

Lemma memberships_keys_witness :
  ∃ o, get_memberships (@fit example_external star_with_isolated default_estimator).1
       = ((@fit example_external star_with_isolated default_estimator).1, Ok o) ∧
       dom o = list_to_set (nodes star_with_isolated).
Proof.
  apply (@memberships_keys example_external default_estimator
           (@fit example_external star_with_isolated default_estimator).1 star_with_isolated).
  - apply graph_wf_by_compute. vm_compute. reflexivity.
  - apply run_ok. vm_compute. reflexivity.
Defined.

(** * Further properties of the pipeline *)

(** ** Adjacencies of the persona graph *)

Section adjacency_of_personas.
Context `{External}.
Variables (s s' : EgoNetSplitter) (G : Graph) (f : local_strategy)
          (parts : list (nat * nat)).
Hypothesis Hwf : graph_wf G.
Hypothesis Hfit : fitted s G s' f parts.

(** Where an adjacency of the persona graph comes from. *)
Lemma fitted_adjacency_origin p q dd :
  p ∈ nodes (persona_graph s') → (q, dd) ∈ adj (persona_graph s') p →
  ∃ u v d, u ∈ nodes G ∧ (v, d) ∈ adj G u ∧
           lookup_component (components s') u v = Some p ∧
           lookup_component (components s') v u = Some q ∧
           dd = emitted_attrs (weight s) d.
Proof.
  intros Hp Hadj.
  pose proof (fitted_edges_Forall2 s s' G f parts Hfit) as HF.
  pose proof (fitted_edges_NoDup s s' G f parts Hwf Hfit) as Hnodup.
  pose proof (from_edgelist_wf (persona_graph_edges s')) as Hpwf.
  rewrite (fitted_persona_graph _ _ _ _ _ Hfit) in Hp, Hadj.
  set (PG := from_edgelist (persona_graph_edges s')) in *.
  assert (∃ d, linked PG p q d) as Hl by (by exists dd).
  apply linked_foldl_add in Hl as [[d' [Hn _]]|(pe & Hpe & Heq)];
    [by apply elem_of_nil in Hn|].
  destruct (from_edgelist_linked _ pe Hnodup Hpe) as [Hn1 Hadj1]. fold PG in Hn1, Hadj1.
  destruct (Forall2_elem_of_r _ _ _ _ HF Hpe) as ([[u v] d] & He & Hfor).
  destruct (persona_edge_for_inv _ _ _ _ Hfor) as (H1 & H2 & H3). simpl in *.
  destruct (edges_adj G u v d He) as [Hu Hd].
  destruct (graph_wf_adj G u v d Hwf Hu Hd) as [Hv Hd'].
  destruct (ends pe) as [a b]. simpl in *.
  apply norm_pair_eq in Heq as [[-> ->]|[-> ->]].
  - exists u, v, d. split_and!; [done..|]. rewrite <- H3.
    apply (NoDup_fst_agree (adj PG p) q); [|done|done].
    by apply graph_wf_neighbors.
  - exists v, u, d. split_and!; [done..|]. rewrite <- H3.
    destruct (graph_wf_adj PG _ _ _ Hpwf Hn1 Hadj1) as [_ Hadj2].
    apply (NoDup_fst_agree (adj PG p) q); [|done|done].
    by apply graph_wf_neighbors.
Qed.

(** Where an adjacency of the original graph goes. *)
Lemma fitted_adjacency_image u v :
  u ∈ nodes G → v ∈ neighbors G u →
  ∃ pu pv, lookup_component (components s') u v = Some pu ∧
           lookup_component (components s') v u = Some pv ∧
           pu ∈ nodes (persona_graph s') ∧ pv ∈ neighbors (persona_graph s') pu.
Proof.
  intros Hu ([v' d] & -> & Hd)%list_elem_of_fmap. simpl.
  pose proof (from_edgelist_wf (persona_graph_edges s')) as Hpwf.
  rewrite <- (fitted_persona_graph _ _ _ _ _ Hfit) in Hpwf.
  destruct (graph_wf_adj G u v' d Hwf Hu Hd) as [Hv Hd'].
  destruct (adj_edges G u v' d Hwf Hu Hd) as [He|He].
  - destruct (fitted_edge_image s s' G f parts Hwf Hfit _ _ _ He)
      as (pu & pv & Hpu & Hpv & Hin).
    exists pu, pv. split_and!; [done|done|..];
      destruct Hin as [Hin|Hin]; apply edges_adj in Hin as [Hn Hadj].
    + done.
    + by destruct (graph_wf_adj _ _ _ _ Hpwf Hn Hadj).
    + apply list_elem_of_fmap. by eexists (pv, _).
    + destruct (graph_wf_adj _ _ _ _ Hpwf Hn Hadj) as [Hn' Hadj'].
      apply list_elem_of_fmap. by eexists (pv, _).
  - destruct (fitted_edge_image s s' G f parts Hwf Hfit _ _ _ He)
      as (pv & pu & Hpv & Hpu & Hin).
    exists pu, pv. split_and!; [done|done|..];
      destruct Hin as [Hin|Hin]; apply edges_adj in Hin as [Hn Hadj].
    + by destruct (graph_wf_adj _ _ _ _ Hpwf Hn Hadj).
    + done.
    + destruct (graph_wf_adj _ _ _ _ Hpwf Hn Hadj) as [Hn' Hadj'].
      apply list_elem_of_fmap. by eexists (pv, _).
    + apply list_elem_of_fmap. by eexists (pv, _).
Qed.

End adjacency_of_personas.

(** X3. The owner map projects the persona graph onto the original graph:
    two adjacent personas are owned by two adjacent nodes, and every
    adjacency of the original graph is the image of the adjacency between
    [components[u][v]] and [components[v][u]]. *)
Theorem persona_graph_projects `{External} (s s' : EgoNetSplitter) (G : Graph) :
  graph_wf G →
  fit G s = (s', Ok tt) →
  (∀ pu pv, pu ∈ nodes (persona_graph s') → pv ∈ neighbors (persona_graph s') pu →
     ∃ u v, personality_map s' !! pu = Some u ∧ personality_map s' !! pv = Some v ∧
            u ∈ nodes G ∧ v ∈ neighbors G u) ∧
  (∀ u v, u ∈ nodes G → v ∈ neighbors G u →
     ∃ pu pv, persona_pair (components s') u v = Some (pu, pv) ∧
              pu ∈ nodes (persona_graph s') ∧ pv ∈ neighbors (persona_graph s') pu).
Proof.
  intros Hwf Hfit. pose proof (graph_wf_nodes G Hwf) as Hnd.
  destruct (fit_inv G s s' Hnd Hfit) as (f & parts & Hfitted).
  split.
  - intros pu pv Hpu ([pv' d] & -> & Hd)%list_elem_of_fmap. simpl.
    destruct (fitted_adjacency_origin s s' G f parts Hwf Hfitted pu pv' d Hpu Hd)
      as (u & v & d0 & Hu & Hadj & H1 & H2 & _).
    destruct (graph_wf_adj G u v d0 Hwf Hu Hadj) as [Hv Hadj'].
    exists u, v. split_and!; [| |done|].
    + apply (fitted_owner s s' G f parts Hnd Hfitted). split; [done|].
      by apply (fitted_component_owner s s' G f parts Hnd Hfitted u v).
    + apply (fitted_owner s s' G f parts Hnd Hfitted). split; [done|].
      by apply (fitted_component_owner s s' G f parts Hnd Hfitted v u).
    + apply list_elem_of_fmap. by exists (v, d0).
  - intros u v Hu Hv.
    destruct (fitted_adjacency_image s s' G f parts Hwf Hfitted u v Hu Hv)
      as (pu & pv & H1 & H2 & Hin & Hadj).
    exists pu, pv. unfold persona_pair. by rewrite H1, H2.
Qed.

Lemma persona_graph_projects_witness :
  ∃ pu pv,
    persona_pair (components (@fit example_external star_graph default_estimator).1) 0 1
      = Some (pu, pv) ∧
    pu ∈ nodes (persona_graph (@fit example_external star_graph default_estimator).1) ∧
    pv ∈ neighbors (persona_graph (@fit example_external star_graph default_estimator).1) pu.
Proof.
  refine (proj2 (@persona_graph_projects example_external default_estimator
                   (@fit example_external star_graph default_estimator).1 star_graph
                   _ _) 0 1 _ _).
  - apply graph_wf_by_compute. vm_compute. reflexivity.
  - apply run_ok. vm_compute. reflexivity.
  - vm_compute. left.
  - vm_compute. left.
Defined.

(** X4. When the local strategy is the built-in one or meets the contract,
    the nodes of the persona graph are exactly the allocated persona ids
    [0 .. index - 1], each once. *)
Theorem persona_graph_nodes `{External} (s s' : EgoNetSplitter) (G : Graph) :
  graph_wf G →
  fit G s = (s', Ok tt) →
  (∀ n, n ∈ nodes G → local_ok s G n) →
  (∀ p, p ∈ nodes (persona_graph s') ↔ p < index s') ∧
  length (nodes (persona_graph s')) = index s'.
Proof.
  intros Hwf Hfit Hok. pose proof (graph_wf_nodes G Hwf) as Hnd.
  destruct (fit_inv G s s' Hnd Hfit) as (f & parts & Hfitted).
  pose proof (fitted_edges_Forall2 s s' G f parts Hfitted) as HF.
  assert (∀ p, p ∈ nodes (persona_graph s') ↔ p < index s') as Hiff.
  { intros p. split.
    - rewrite (fitted_persona_graph _ _ _ _ _ Hfitted).
      intros [Hn|(pe & Hpe & Hp)]%elem_of_nodes_foldl_add; [by apply elem_of_nil in Hn|].
      destruct (Forall2_elem_of_r _ _ _ _ HF Hpe) as (e & He & Hfor).
      destruct (fitted_edge_owners s s' G f parts Hwf Hfitted _ _ He Hfor) as [Hou Hov].
      apply (fitted_owner_total s s' G f parts Hnd Hfitted).
      destruct Hp as [-> | ->]; eauto.
    - intros [n [Hn Hp]%(fitted_owner s s' G f parts Hnd Hfitted)]
        %(fitted_owner_total s s' G f parts Hnd Hfitted).
      pose proof (fitted_resolved _ _ _ _ _ n Hfitted Hn) as Hf.
      pose proof (local_ok_contract s G n f Hwf Hn (Hok n Hn) Hf) as Hcontract.
      by eapply contract_persona_in_graph. }
  split; [done|].
  transitivity (length (seq 0 (index s'))); [|apply length_seq].
  apply Permutation_length, NoDup_Permutation.
  - rewrite (fitted_persona_graph _ _ _ _ _ Hfitted).
    apply graph_wf_nodes, from_edgelist_wf.
  - apply NoDup_seq.
  - intros p. rewrite Hiff, elem_of_seq. lia.
Qed.

Lemma persona_graph_nodes_witness :
  length (nodes (persona_graph (@fit example_external star_graph default_estimator).1))
  = index (@fit example_external star_graph default_estimator).1.
Proof.
  apply (@persona_graph_nodes example_external default_estimator
           (@fit example_external star_graph default_estimator).1 star_graph).
  - apply graph_wf_by_compute. vm_compute. reflexivity.
  - apply run_ok. vm_compute. reflexivity.
  - intros n _. left. reflexivity.
Defined.


Section component_classes.
Variable H : Graph.
Hypothesis Hnodup : NoDup (nodes H).
Hypothesis Hclosed : ∀ u x, x ∈ neighbors H u → x ∈ nodes H.
Hypothesis Hsym : ∀ u x, x ∈ neighbors H u → u ∈ neighbors H x.

Lemma cc_foldl_classes st ns :
  Forall (λ c, closed_under H c ∧ ∃ src, ∀ x, x ∈ c → reach H src x) st.2 →
  (∀ v, v ∈ ns → v ∈ nodes H) →
  Forall (λ c, closed_under H c ∧ ∃ src, ∀ x, x ∈ c → reach H src x)
         (foldl (cc_step H) st ns).2.
Proof.
  revert st. induction ns as [|v ns IH]; intros st Hst Hns; simpl; [done|].
  apply IH; [|intros w Hw; apply Hns; by right].
  unfold cc_step. case_decide; [done|]. simpl.
  apply Forall_app. split; [done|]. constructor; [|constructor].
  destruct (plain_bfs_spec H Hnodup Hclosed Hsym v) as (_ & _ & Hreach & Hcl);
    [apply Hns; by left|].
  split; [done|]. exists v. intros x Hx. by apply Hreach.
Qed.

(** Two nodes are in one component exactly when a path joins them. *)
Lemma same_component_iff x y :
  x ∈ nodes H →
  (∃ c, c ∈ connected_components H ∧ x ∈ c ∧ y ∈ c) ↔ reach H x y.
Proof.
  intros Hx.
  pose proof (cc_foldl_classes ([], []) (nodes H) ltac:(constructor) ltac:(done))
    as Hclasses.
  fold (connected_components H) in Hclasses. rewrite Forall_forall in Hclasses.
  destruct (connected_components_spec H Hnodup Hclosed Hsym) as (_ & _ & Hcov).
  split.
  - intros (c & Hc & Hxc & Hyc).
    destruct (Hclasses c Hc) as (_ & src & Hsrc).
    etrans; [apply (reach_sym H Hsym), Hsrc, Hxc|by apply Hsrc].
  - intros Hxy. apply Hcov, elem_of_concat in Hx as (c & Hxc & Hc).
    exists c. split_and!; [done|done|].
    destruct (Hclasses c Hc) as (Hcl & _).
    by apply (closed_under_reach H c x y).
Qed.

End component_classes.

(** X5. With the built-in strategy, a node [u] shows the same persona to
    two of its neighbours exactly when a path through neighbours of [u]
    (not through [u] itself) joins them. *)
Theorem same_persona_iff_connected `{External} (s s' : EgoNetSplitter)
    (G : Graph) (u v w : node) :
  graph_wf G →
  fit G s = (s', Ok tt) →
  method_local s = Named "components" →
  u ∈ nodes G →
  v ∈ neighbors G u →
  w ∈ neighbors G u →
  lookup_component (components s') u v = lookup_component (components s') u w ↔
  reach (subgraph G (neighbors G u)) v w.
Proof.
  intros Hwf Hfit Hm Hu Hv Hw. pose proof (graph_wf_nodes G Hwf) as Hnd.
  destruct (fit_inv G s s' Hnd Hfit) as (f & parts & Hfitted).
  pose proof (fitted_resolved _ _ _ _ _ u Hfitted Hu) as Hf.
  rewrite Hm, resolve_local_components in Hf. injection Hf as <-.
  destruct (components_contract G u Hwf Hu) as (_ & _ & Hcov & Hdisj).
  assert (∀ x, x ∈ neighbors G u →
            ∃ i c, connected_components (subgraph G (neighbors G u)) !! i = Some c ∧
                   x ∈ c ∧
                   lookup_component (components s') u x
                     = Some (persona_base components_strategy G (nodes G) u + i))
    as Hlookup.
  { intros x Hx. destruct (Hcov x Hx) as (kv & [i Hi]%list_elem_of_lookup & Hxkv).
    pose proof Hi as (c & Hc & ->)%enumerate_lookup. exists i, c.
    split_and!; [done|done|]. unfold lookup_component.
    rewrite (fitted_components_node s s' G _ parts Hnd Hfitted u Hu). simpl.
    apply (cluster_map_lookup _ _ _ i (i, c) x Hi Hxkv).
    intros j kv' Hlt Hj Hx'. pose proof (Hdisj _ _ _ _ _ Hi Hj Hxkv Hx'). lia. }
  destruct (Hlookup v Hv) as (i & ci & Hci & Hvi & ->).
  destruct (Hlookup w Hw) as (j & cj & Hcj & Hwj & ->).
  assert (NoDup (nodes (subgraph G (neighbors G u)))) as HnodupH.
  { simpl. by apply NoDup_filter. }
  assert (∀ a x, x ∈ neighbors (subgraph G (neighbors G u)) a →
                 x ∈ nodes (subgraph G (neighbors G u))) as HclosedH.
  { intros a x (_ & Hx & _)%(elem_of_neighbors_ego G u). by apply elem_of_nodes_ego. }
  assert (∀ a x, x ∈ neighbors (subgraph G (neighbors G u)) a →
                 a ∈ neighbors (subgraph G (neighbors G u)) x) as HsymH.
  { intros a x (Ha & Hx & Hax)%(elem_of_neighbors_ego G u).
    apply elem_of_neighbors_ego. split_and!; [done|done|].
    assert (a ∈ nodes G) as Han by (by destruct (graph_wf_sym G u a Hwf Hu Ha)).
    by destruct (graph_wf_sym G a x Hwf Han Hax). }
  rewrite <- (same_component_iff _ HnodupH HclosedH HsymH v w)
    by (by apply elem_of_nodes_ego).
  split.
  - intros [= Hij]. assert (i = j) as -> by lia.
    exists ci. split_and!; [by eapply list_elem_of_lookup_2|done|]. congruence.
  - intros (c & [k Hk]%list_elem_of_lookup & Hvc & Hwc).
    assert (i = k) as ->.
    { apply (Hdisj i k (i, ci) (k, c) v); [by apply enumerate_lookup; eauto
                                           |by apply enumerate_lookup; eauto|done|done]. }
    assert (j = k) as ->.
    { apply (Hdisj j k (j, cj) (k, c) w); [by apply enumerate_lookup; eauto
                                           |by apply enumerate_lookup; eauto|done|done]. }
    done.
Qed.

Lemma same_persona_iff_connected_witness :
  lookup_component
    (components (@fit example_external weighted_path default_estimator).1) 1 0
  = lookup_component
      (components (@fit example_external weighted_path default_estimator).1) 1 2
  ↔ reach (subgraph weighted_path (neighbors weighted_path 1)) 0 2.
Proof.
  apply (@same_persona_iff_connected example_external default_estimator
           (@fit example_external weighted_path default_estimator).1 weighted_path 1 0 2).
  - apply from_edgelist_wf.
  - apply run_ok. vm_compute. reflexivity.
  - reflexivity.
  - vm_compute. right. left.
  - vm_compute. left.
  - vm_compute. right. left.
Defined.

(** ** The partition stage *)

Section partition_stage.
Context `{External}.

(** The aggregation loop writes [overlapping_partitions] and nothing
    else, also when it stops at a missing key. *)
Lemma append_memberships_frame parts s :
  is_Some (overlapping_partitions s) →
  ∃ o, (for_each parts append_membership s).1 = set_overlapping_partitions o s.
Proof.
  revert s. induction parts as [|item parts IH]; intros s [o Ho].
  - exists o. simpl. destruct s; simpl in *. by subst.
  - simpl. munfold. rewrite (append_membership_run _ o) by done.
    destruct (personality_map s !! item.1 ≫= _) as [ol|]; simpl.
    + destruct (IH (set_overlapping_partitions (<[ol.1 := ol.2 ++ [item.2]]> o) s))
        as [o' Ho']; [by destruct s; eauto|].
      exists o'.
      destruct (for_each parts append_membership _) as [s'' r]. simpl in *. subst.
      by destruct r, s.
    + exists o. destruct s; simpl in *. by subst.
Qed.

End partition_stage.

Lemma allocation_owner f G p n :
  NoDup (nodes G) →
  personality_fold (egonets f G (nodes G)).1.2 (nodes G) !! p = Some n ↔
  n ∈ nodes G ∧ p ∈ default [] ((egonets f G (nodes G)).1.2 !! n).
Proof.
  intros Hnd. apply personality_fold_lookup.
  rewrite persona_ranges by done. apply NoDup_seq.
Qed.

Lemma allocation_owner_total f G p :
  NoDup (nodes G) →
  is_Some (personality_fold (egonets f G (nodes G)).1.2 (nodes G) !! p) ↔
  p < (egonets f G (nodes G)).2.
Proof.
  intros Hnd. rewrite egonets_index by done.
  assert (p < total_personas f G (nodes G) ↔
          p ∈ concat ((λ n, default [] ((egonets f G (nodes G)).1.2 !! n)) <$> nodes G))
    as ->.
  { rewrite persona_ranges by done. rewrite elem_of_seq. lia. }
  rewrite elem_of_concat. split.
  - intros [n Hn]. apply allocation_owner in Hn as [Hn Hp]; [|done].
    eexists. split; [done|].
    by apply (list_elem_of_fmap_2 (λ n, default [] (_ !! n))).
  - intros (ps & Hp & (n & -> & Hn)%list_elem_of_fmap).
    exists n. by apply allocation_owner.
Qed.

(** X6. The result of a callable global strategy is validated by nothing
    but the subscript [personality_map[node]]: [fit] completes exactly when
    every key of the returned dictionary is a persona id, whether or not
    every persona is a key, and stops with [KeyError] otherwise, the
    partition already stored. *)
Theorem global_partition_keys `{External} (s : EgoNetSplitter) (G : Graph)
    (f : local_strategy) (g : global_strategy) :
  graph_wf G →
  check_graph G = true →
  resolve_local (method_local s) = Some f →
  covers f G →
  method_global s = Callable g →
  partitions (fit G s).1 = Some (g (persona_graph (fit G s).1)) ∧
  ((fit G s).2 = Ok tt ↔
   Forall (λ it, it.1 < index (fit G s).1) (g (persona_graph (fit G s).1))) ∧
  ((fit G s).2 = Ok tt ∨ (fit G s).2 = Raise KeyError).
Proof.
  intros Hwf Hck Hf Hcov Hg. pose proof (graph_wf_nodes G Hwf) as Hnd.
  destruct (covered_persona_edges f G Hwf (weight s) Hcov) as [l Hl].
  rewrite (fit_run G s f) by eauto. rewrite Hl.
  set (s3 := with_persona_graph l (indexed f G s)).
  replace (method_global s) with (method_global s3) by (by destruct s).
  rewrite create_partitions_run. cbv zeta.
  assert (resolve_global s3 = Some (g (from_edgelist l))) as ->.
  { unfold resolve_global.
    replace (method_global s3) with (method_global s) by (by destruct s).
    rewrite Hg. by destruct s. }
  set (parts := g (from_edgelist l)).
  replace (partitions (set_partitions parts s3)) with (Some parts) by done.
  replace (graph s3) with G by (by destruct s).
  set (s4 := set_overlapping_partitions (empty_memberships G) (set_partitions parts s3)).
  destruct (append_memberships_frame parts s4) as [o Ho]; [by eauto|].
  pose proof (append_memberships_run parts (empty_memberships G) s4 eq_refl) as Hrun.
  replace (personality_map s4)
    with (personality_fold (egonets f G (nodes G)).1.2 (nodes G)) in Hrun
    by (by destruct s).
  assert (persona_graph (for_each parts append_membership s4).1 = from_edgelist l) as ->
    by (rewrite Ho; by destruct s).
  assert (index (for_each parts append_membership s4).1 = (egonets f G (nodes G)).2) as ->
    by (rewrite Ho; by destruct s).
  assert (partitions (for_each parts append_membership s4).1 = Some parts) as ->
    by (rewrite Ho; by destruct s).
  fold parts. split; [done|].
  destruct (aggregate _ _ parts) as [o'|] eqn:Hagg.
  - rewrite Hrun. simpl. split; [|by left]. split; [|done]. intros _.
    eapply Forall_impl; [by eapply aggregate_owners|].
    intros it Hit. simpl in Hit. by apply allocation_owner_total in Hit.
  - destruct Hrun as (s'' & Hrun & _). rewrite Hrun. simpl. split; [|by right].
    split; [done|]. intros Hall.
    assert (is_Some (aggregate (personality_fold (egonets f G (nodes G)).1.2 (nodes G))
                       (empty_memberships G) parts)) as [? ?]; [|congruence].
    apply aggregate_is_Some. eapply Forall_impl; [done|].
    intros it Hit. simpl in Hit.
    apply allocation_owner_total in Hit as [n Hn]; [|done].
    exists n. split; [done|].
    apply allocation_owner in Hn as [Hn _]; [|done].
    rewrite empty_memberships_lookup, decide_True by done. eauto.
Qed.

Lemma global_partition_keys_witness :
  (@fit example_external star_graph
     (init 1%Q 42 (Some "weight") (Named "components") (Callable foreign_key_partition))).2
    = Ok tt ↔
  Forall (λ it, it.1 < index (@fit example_external star_graph
     (init 1%Q 42 (Some "weight") (Named "components") (Callable foreign_key_partition))).1)
    (foreign_key_partition (persona_graph (@fit example_external star_graph
     (init 1%Q 42 (Some "weight") (Named "components") (Callable foreign_key_partition))).1)).
Proof.
  refine (proj1 (proj2 (@global_partition_keys example_external
           (init 1%Q 42 (Some "weight") (Named "components") (Callable foreign_key_partition))
           star_graph components_strategy foreign_key_partition _ _ _ _ _))).
  - apply graph_wf_by_compute. vm_compute. reflexivity.
  - vm_compute. reflexivity.
  - reflexivity.
  - apply (bool_decide_eq_true_1 (covers components_strategy star_graph)).
    vm_compute. reflexivity.
  - reflexivity.
Defined.

(** ** Every item of the partition reaches one membership list *)

Lemma concat_insert_one {A} (F F' : node → list A) (x : A) (n0 : node) ns :
  NoDup ns → n0 ∈ ns →
  F' n0 = x :: F n0 →
  (∀ n, n ≠ n0 → F' n = F n) →
  concat (F' <$> ns) ≡ₚ x :: concat (F <$> ns).
Proof.
  intros Hnd Hn0 Hx Hother. induction ns as [|m ns IH]; [by apply elem_of_nil in Hn0|].
  apply NoDup_cons in Hnd as [Hm Hnd]. rewrite !fmap_cons. cbn [concat].
  destruct (decide (m = n0)) as [->|Hne].
  - rewrite Hx. simpl. do 2 f_equiv.
    assert (F' <$> ns = F <$> ns) as ->; [|done].
    apply list_fmap_ext. intros i n Hi. apply Hother. intros ->.
    apply Hm. by eapply list_elem_of_lookup_2.
  - apply elem_of_cons in Hn0 as [?|Hn0]; [congruence|].
    rewrite (Hother m Hne), (IH Hnd Hn0). by rewrite Permutation_middle.
Qed.

Lemma concat_owned_items (pm : gmap nat node) (ns : list node) (parts : list (nat * nat)) :
  NoDup ns →
  Forall (λ it, ∃ n, pm !! it.1 = Some n ∧ n ∈ ns) parts →
  concat ((λ n, (filter (λ it, pm !! it.1 = Some n) parts).*2) <$> ns) ≡ₚ parts.*2.
Proof.
  intros Hnd. induction parts as [|a parts IH]; intros Hall.
  - simpl. clear Hnd Hall. induction ns as [|m ns IHns]; [done|].
    rewrite fmap_cons. cbn [concat]. done.
  - apply Forall_cons in Hall as [(n0 & Hown & Hn0) Hall].
    rewrite fmap_cons, <- (IH Hall).
    apply (concat_insert_one _ _ _ n0); [done|done| |].
    + by rewrite filter_cons_True.
    + intros n Hne. rewrite filter_cons_False; [done|]. congruence.
Qed.

(** X7. The membership lists of the nodes hold, between them, the
    community of every item of the partition exactly once: nothing the
    global strategy returned is dropped or counted twice. *)
Theorem memberships_partition_items `{External} (s s' : EgoNetSplitter) (G : Graph)
    (parts : list (nat * nat)) :
  graph_wf G →
  fit G s = (s', Ok tt) →
  partitions s' = Some parts →
  ∃ o, get_memberships s' = (s', Ok o) ∧
       concat ((λ n, default [] (o !! n)) <$> nodes G) ≡ₚ parts.*2.
Proof.
  intros Hwf Hfit Hparts. pose proof (graph_wf_nodes G Hwf) as Hnd.
  destruct (fit_inv G s s' Hnd Hfit) as (f & parts' & Hfitted).
  assert (parts' = parts) as ->.
  { pose proof (fitted_partitions _ _ _ _ _ Hfitted). congruence. }
  destruct (fitted_get_memberships _ _ _ _ _ Hfitted) as (o & Hget & Ho).
  exists o. split; [done|].
  rewrite <- (concat_owned_items (personality_map s') (nodes G) parts Hnd).
  - assert ((λ n, default [] (o !! n)) <$> nodes G =
            (λ n, (filter (λ it, personality_map s' !! it.1 = Some n) parts).*2)
              <$> nodes G) as ->; [|done].
    apply list_fmap_ext. intros i n Hn%list_elem_of_lookup_2.
    by rewrite (fitted_membership s s' G f parts Hfitted o n Ho Hn).
  - destruct (fitted_memberships _ _ _ _ _ Hfitted) as (o' & Hagg & _).
    eapply Forall_impl; [by eapply aggregate_owners|].
    intros it [n Hn]. exists n. split; [done|].
    by apply (fitted_owner s s' G f parts Hnd Hfitted) in Hn as [Hn _].
Qed.

Lemma memberships_partition_items_witness :
  ∃ o, get_memberships (@fit example_external star_graph shuffled_estimator).1
       = ((@fit example_external star_graph shuffled_estimator).1, Ok o) ∧
       concat ((λ n, default [] (o !! n)) <$> nodes star_graph)
         ≡ₚ [(1, 1); (0, 0); (2, 0); (3, 1)].*2.
Proof.
  apply (@memberships_partition_items example_external shuffled_estimator
           (@fit example_external star_graph shuffled_estimator).1 star_graph).
  - apply graph_wf_by_compute. vm_compute. reflexivity.
  - apply run_ok. vm_compute. reflexivity.
  - vm_compute. reflexivity.
Defined.

(** ** The exceptions of [fit] *)

(** X8. The exceptions [fit] can raise on a well-formed graph.  The graph
    check's error leaves the object untouched; [ValueError] comes from an
    unrecognised local name on a graph with a node; [AttributeError] from
    an unrecognised global name on an object that holds no partition yet;
    everything else is the [KeyError] of a missed subscript.  The
    subscript [edge[2]] is never out of range. *)
Theorem fit_error_kinds `{External} (s s' : EgoNetSplitter) (G : Graph) (e : exn) :
  graph_wf G →
  fit G s = (s', Raise e) →
  (e = GraphCheckError ∧ check_graph G = false ∧ s' = s) ∨
  (e = ValueError ∧ resolve_local (method_local s) = None ∧ nodes G ≠ []) ∨
  (e = KeyError ∧ check_graph G = true) ∨
  (e = AttributeError ∧ ¬ recognised_global (method_global s) ∧ partitions s = None).
Proof.
  intros Hwf Hfit. pose proof (graph_wf_nodes G Hwf) as Hnd.
  destruct (check_graph G) eqn:Hck.
  2:{ rewrite fit_rejected in Hfit by done. injection Hfit as <- <-. by left. }
  right.
  assert ((resolve_local (method_local s) = None ∧ nodes G ≠ []) ∨
          ∃ f, resolve_local (method_local s) = Some f ∨ nodes G = []) as [[Hf Hn]|[f Hf]].
  { destruct (resolve_local (method_local s)) as [f|] eqn:Hf; [by eauto|].
    destruct (decide (nodes G = [])) as [Hn|Hn]; [right; exists (λ _, []); by right|].
    by left. }
  { rewrite fit_unresolved in Hfit by done. injection Hfit as _ <-. by left. }
  right.
  rewrite (fit_run G s f) in Hfit by done.
  destruct (persona_edges _ _ _) as [l|] eqn:Hl.
  2:{ injection Hfit as _ <-. by left. }
  set (s3 := with_persona_graph l (indexed f G s)) in *.
  replace (method_global s) with (method_global s3) in Hfit by (by destruct s).
  rewrite create_partitions_run in Hfit. cbv zeta in Hfit.
  set (s4 := match resolve_global s3 with
             | Some p => set_partitions p s3
             | None => s3
             end) in *.
  destruct (partitions s4) as [parts|] eqn:Hparts.
  - left. split; [|done].
    pose proof (append_memberships_run parts (empty_memberships (graph s3))
      (set_overlapping_partitions (empty_memberships (graph s3)) s4) eq_refl) as Hrun.
    destruct (aggregate _ _ parts) as [o|].
    + rewrite Hrun in Hfit. done.
    + destruct Hrun as (s'' & Hrun & _). rewrite Hrun in Hfit. by injection Hfit as _ <-.
  - right. injection Hfit as _ <-. split; [done|].
    unfold s4 in Hparts. destruct (resolve_global s3) as [p|] eqn:Hrg; [done|].
    split; [|by destruct s].
    unfold resolve_global in Hrg.
    replace (method_global s3) with (method_global s) in Hrg by (by destruct s).
    destruct (method_global s) as [name|g]; [|done]. simpl.
    by case_decide.
Qed.

Lemma fit_error_kinds_witness :
  (KeyError = GraphCheckError ∧ spec_check_graph single_edge = false ∧
   (@fit example_external single_edge
      (init 1%Q 42 (Some "weight") (Callable empty_strategy) (Named "louvain"))).1
   = init 1%Q 42 (Some "weight") (Callable empty_strategy) (Named "louvain")) ∨
  (KeyError = ValueError ∧
   resolve_local (Callable empty_strategy) = None ∧ nodes single_edge ≠ []) ∨
  (KeyError = KeyError ∧ spec_check_graph single_edge = true) ∨
  (KeyError = AttributeError ∧
   ¬ recognised_global (Named "louvain") ∧
   partitions (init 1%Q 42 (Some "weight") (Callable empty_strategy) (Named "louvain"))
   = None).
Proof.
  apply (@fit_error_kinds example_external
           (init 1%Q 42 (Some "weight") (Callable empty_strategy) (Named "louvain"))
           (@fit example_external single_edge
              (init 1%Q 42 (Some "weight") (Callable empty_strategy) (Named "louvain"))).1
           single_edge KeyError).
  - apply from_edgelist_wf.
  - vm_compute. reflexivity.
Defined.

(** ** Fitting an object again *)

Section refit.
Context `{External}.

Lemma resolve_global_config s s0 :
  same_config s s0 → persona_graph s = persona_graph s0 →
  resolve_global s = resolve_global s0.
Proof.
  intros (Hr & Hsd & Hw & _ & Hg) Hpg. unfold resolve_global.
  by rewrite Hr, Hsd, Hw, Hg, Hpg.
Qed.

Lemma overwritten_state s s0 f G l p o :
  same_config s s0 →
  set_overlapping_partitions o
    (set_partitions p (with_persona_graph l (indexed f G s))) =
  set_overlapping_partitions o
    (set_partitions p (with_persona_graph l (indexed f G s0))).
Proof.
  intros (Hr & Hsd & Hw & Hl & Hg). destruct s, s0. simpl in *. by subst.
Qed.

End refit.

(** X9. With a recognised global strategy a completed [fit] overwrites
    every attribute it reads: the object it leaves depends on the
    constructor's arguments and on the graph only, not on what an earlier
    [fit] left in the object. *)
Theorem fit_overwrites_earlier_state `{External} (s s0 s' : EgoNetSplitter) (G : Graph) :
  graph_wf G →
  same_config s s0 →
  recognised_global (method_global s) →
  fit G s = (s', Ok tt) →
  fit G s0 = (s', Ok tt).
Proof.
  intros Hwf Hcfg Hrec Hfit. pose proof (graph_wf_nodes G Hwf) as Hnd.
  pose proof Hcfg as (Hr & Hsd & Hw & Hml & Hmg).
  destruct (check_graph G) eqn:Hck; [|by rewrite fit_rejected in Hfit].
  assert (∃ f, resolve_local (method_local s) = Some f ∨ nodes G = []) as [f Hf].
  { destruct (resolve_local (method_local s)) as [f|] eqn:Hf; [by eauto|].
    destruct (decide (nodes G = [])) as [Hn|Hn]; [exists (λ _, []); by right|].
    by rewrite fit_unresolved in Hfit. }
  rewrite <- Hfit.
  rewrite (fit_run G s f), (fit_run G s0 f) by (done || by rewrite <- Hml).
  rewrite (fit_run G s f) in Hfit by done.
  rewrite <- Hw.
  destruct (persona_edges _ _ _) as [l|] eqn:Hl; [|done].
  set (s3 := with_persona_graph l (indexed f G s)) in *.
  set (s3' := with_persona_graph l (indexed f G s0)).
  assert (same_config s3 s3') as Hcfg3.
  { unfold same_config, s3, s3'. by destruct s, s0. }
  replace (method_global s) with (method_global s3) by (by destruct s).
  replace (method_global s0) with (method_global s3') by (by destruct s0).
  rewrite !create_partitions_run. cbv zeta.
  rewrite <- (resolve_global_config s3 s3') by (done || by destruct s, s0).
  assert (∃ p, resolve_global s3 = Some p) as [p ->].
  { unfold resolve_global.
    replace (method_global s3) with (method_global s) by (by destruct s).
    destruct (method_global s) as [name|g]; [|by eauto].
    simpl in Hrec. rewrite decide_True by done. eauto. }
  replace (partitions (set_partitions p s3)) with (Some p) by done.
  replace (partitions (set_partitions p s3')) with (Some p) by done.
  replace (graph s3') with (graph s3) by (by destruct s, s0).
  unfold s3, s3'. by rewrite (overwritten_state s s0).
Qed.

Lemma fit_overwrites_earlier_state_witness :
  @fit example_external weighted_path
    (@fit example_external star_graph default_estimator).1
  = ((@fit example_external weighted_path default_estimator).1, Ok tt).
Proof.
  apply (@fit_overwrites_earlier_state example_external default_estimator).
  - apply from_edgelist_wf.
  - vm_compute. repeat split; reflexivity.
  - reflexivity.
  - apply run_ok. vm_compute. reflexivity.
Defined.

(** ** The graph without nodes *)



(** ** Attributes in the persona graph *)

(** X11. Every edge of the persona graph comes from an adjacency [u - v]
    of the original graph between the owners of its ends, and its
    attribute dictionary holds nothing but that edge's entry under the
    weight key: other attributes are not copied, and without a weight key
    the dictionary is empty. *)
Theorem persona_edge_attributes `{External} (s s' : EgoNetSplitter) (G : Graph)
    (pu pv : nat) (dd : attrs) :
  graph_wf G →
  fit G s = (s', Ok tt) →
  (pu, pv, dd) ∈ edges (persona_graph s') →
  ∃ u v d, u ∈ nodes G ∧ (v, d) ∈ adj G u ∧
           lookup_component (components s') u v = Some pu ∧
           lookup_component (components s') v u = Some pv ∧
           dd = emitted_attrs (weight s) d ∧
           (weight s = None → dd = ∅) ∧
           (∀ key k, weight s = Some key → k ≠ key → dd !! k = None).
Proof.
  intros Hwf Hfit Hin. pose proof (graph_wf_nodes G Hwf) as Hnd.
  destruct (fit_inv G s s' Hnd Hfit) as (f & parts & Hfitted).
  destruct (edges_adj (persona_graph s') pu pv dd Hin) as [Hpu Hadj].
  destruct (fitted_adjacency_origin s s' G f parts Hwf Hfitted pu pv dd Hpu Hadj)
    as (u & v & d & Hu & Hd & H1 & H2 & Hdd).
  exists u, v, d. split_and!; [done..| |].
  - intros Hw. by rewrite Hdd, Hw.
  - intros key k Hw Hk. rewrite Hdd, Hw. simpl.
    destruct (d !! key); [|done]. by apply lookup_singleton_ne.
Qed.

Lemma persona_edge_attributes_witness :
  ∃ u v d, u ∈ nodes weighted_path ∧ (v, d) ∈ adj weighted_path u ∧
           lookup_component
             (components (@fit example_external weighted_path default_estimator).1) u v
             = Some 0 ∧
           lookup_component
             (components (@fit example_external weighted_path default_estimator).1) v u
             = Some 1 ∧
           ({[ "weight" := 5%Z ]} : attrs) = emitted_attrs (weight default_estimator) d ∧
           (weight default_estimator = None → ({[ "weight" := 5%Z ]} : attrs) = ∅) ∧
           (∀ key k, weight default_estimator = Some key → k ≠ key →
                     ({[ "weight" := 5%Z ]} : attrs) !! k = None).
Proof.
  apply (@persona_edge_attributes example_external default_estimator
           (@fit example_external weighted_path default_estimator).1 weighted_path).
  - apply from_edgelist_wf.
  - apply run_ok. vm_compute. reflexivity.
  - vm_compute. left.
Defined.

(** ** Clusters that share a node *)

(** X12. The persona [components[u][v]] is the one allocated for the last
    cluster of [u]'s ego-net that lists [v]: it is [personalities[u][i]]
    for the last index [i] whose cluster holds [v].  A node listed by
    several clusters is overwritten by the later ones, and a listed node
    that is no neighbour of [u] gets an entry all the same. *)
Theorem last_cluster_wins `{External} (s s' : EgoNetSplitter) (G : Graph)
    (f : local_strategy) (u v : node) (i : nat) (kv : nat * list node) :
  graph_wf G →
  fit G s = (s', Ok tt) →
  resolve_local (method_local s) = Some f →
  u ∈ nodes G →
  clusters_of f G u !! i = Some kv →
  v ∈ kv.2 →
  (∀ j kv', i < j → clusters_of f G u !! j = Some kv' → v ∉ kv'.2) →
  ∃ p, personas_of s' u !! i = Some p ∧
       lookup_component (components s') u v = Some p.
Proof.
  intros Hwf Hfit Hf Hu Hi Hv Hlast. pose proof (graph_wf_nodes G Hwf) as Hnd.
  destruct (fit_inv G s s' Hnd Hfit) as (f' & parts & Hfitted).
  pose proof (fitted_resolved _ _ _ _ _ u Hfitted Hu) as Hf'.
  assert (f' = f) as -> by congruence.
  exists (persona_base f G (nodes G) u + i). split.
  - unfold personas_of. rewrite (fitted_personas s s' G f parts Hnd Hfitted u Hu).
    simpl. apply lookup_seq. split; [done|]. by apply lookup_lt_Some in Hi.
  - unfold lookup_component.
    rewrite (fitted_components_node s s' G f parts Hnd Hfitted u Hu). simpl.
    by apply (cluster_map_lookup _ _ _ i kv v).
Qed.

Lemma last_cluster_wins_witness :
  ∃ p, personas_of
         (@fit example_external single_edge
            (init 1%Q 42 (Some "weight") (Callable overlapping_strategy)
               (Named "louvain"))).1 0 !! 1 = Some p ∧
       lookup_component
         (components
            (@fit example_external single_edge
               (init 1%Q 42 (Some "weight") (Callable overlapping_strategy)
                  (Named "louvain"))).1) 0 1 = Some p.
Proof.
  apply (@last_cluster_wins example_external
           (init 1%Q 42 (Some "weight") (Callable overlapping_strategy) (Named "louvain"))
           (@fit example_external single_edge
              (init 1%Q 42 (Some "weight") (Callable overlapping_strategy)
                 (Named "louvain"))).1
           single_edge overlapping_strategy 0 1 1 (1, [1])).
  - apply from_edgelist_wf.
  - apply run_ok. vm_compute. reflexivity.
  - reflexivity.
  - vm_compute. left.
  - vm_compute. reflexivity.
  - simpl. left.
  - intros j kv' Hj Hlk. vm_compute in Hlk.
    destruct j as [|[|j]]; [lia|lia|discriminate].
Defined.

(** ** Degrees *)

Lemma length_bind_sum {A B} (g : A → list B) (l : list A) :
  length (l ≫= g) = sum_list ((λ x, length (g x)) <$> l).
Proof.
  induction l as [|x l IH]; [done|].
  rewrite fmap_cons. cbn [sum_list]. rewrite <- IH.
  change ((x :: l) ≫= g) with (g x ++ (l ≫= g)). apply length_app.
Qed.

(** X13. Splitting preserves the neighbour counts: a node has as many
    neighbours as its personas have, taken together, in the persona graph,
    for every local strategy with which [fit] completes (a persona that no
    edge uses is no node of the persona graph and counts for nothing). *)
Theorem degree_split `{External} (s s' : EgoNetSplitter) (G : Graph) (u : node) :
  graph_wf G →
  fit G s = (s', Ok tt) →
  u ∈ nodes G →
  sum_list ((λ p, length (neighbors (persona_graph s') p))
              <$> filter (λ p, p ∈ nodes (persona_graph s')) (personas_of s' u))
  = length (neighbors G u).
Proof.
  intros Hwf Hfit Hu. pose proof (graph_wf_nodes G Hwf) as Hnd.
  destruct (fit_inv G s s' Hnd Hfit) as (f & parts & Hfitted).
  pose proof (from_edgelist_wf (persona_graph_edges s')) as Hpwf.
  rewrite <- (fitted_persona_graph _ _ _ _ _ Hfitted) in Hpwf.
  set (PG := persona_graph s') in *.
  set (ps := filter (λ p, p ∈ nodes PG) (personas_of s' u)).
  set (pair_of := λ v, default (0, 0) (persona_pair (components s') u v)).
  transitivity (length (ps ≫= (λ p, (p,.) <$> neighbors PG p))).
  { rewrite length_bind_sum. f_equal. apply list_fmap_ext. intros i p _.
    by rewrite length_fmap. }
  rewrite <- (length_fmap pair_of (neighbors G u)).
  apply Permutation_length. symmetry. apply NoDup_Permutation.
  - apply NoDup_fmap_2_strong; [|by apply graph_wf_neighbors].
    intros v1 v2 Hv1 Hv2 Heq.
    destruct (fitted_adjacency_image s s' G f parts Hwf Hfitted u v1 Hu Hv1)
      as (pu1 & pv1 & Hpu1 & Hpv1 & _).
    destruct (fitted_adjacency_image s s' G f parts Hwf Hfitted u v2 Hu Hv2)
      as (pu2 & pv2 & Hpu2 & Hpv2 & _).
    unfold pair_of, persona_pair in Heq.
    rewrite Hpu1, Hpv1, Hpu2, Hpv2 in Heq. simpl in Heq. injection Heq as -> ->.
    assert (v1 ∈ nodes G) as Hn1 by (by destruct (graph_wf_sym G u v1 Hwf Hu Hv1)).
    assert (v2 ∈ nodes G) as Hn2 by (by destruct (graph_wf_sym G u v2 Hwf Hu Hv2)).
    pose proof (fitted_component_owner s s' G f parts Hnd Hfitted v1 u pv2 Hn1 Hpv1) as Ho1.
    pose proof (fitted_component_owner s s' G f parts Hnd Hfitted v2 u pv2 Hn2 Hpv2) as Ho2.
    assert (personality_map s' !! pv2 = Some v1) as E1
      by (by apply (fitted_owner s s' G f parts Hnd Hfitted)).
    assert (personality_map s' !! pv2 = Some v2) as E2
      by (by apply (fitted_owner s s' G f parts Hnd Hfitted)).
    congruence.
  - apply NoDup_bind.
    + intros p1 p2 [p q] _ _ (? & [= -> ->] & _)%list_elem_of_fmap
        (? & [= -> ->] & _)%list_elem_of_fmap. done.
    + intros p [Hp _]%list_elem_of_filter.
      apply NoDup_fmap_2_strong; [|exact (graph_wf_neighbors PG p Hpwf Hp)].
      by intros q1 q2 _ _ [= ->].
    + apply NoDup_filter. unfold personas_of.
      rewrite (fitted_personas s s' G f parts Hnd Hfitted u Hu). apply NoDup_seq.
  - intros [p q]. rewrite list_elem_of_fmap, list_elem_of_bind. split.
    + intros (v & Hpq & Hv).
      destruct (fitted_adjacency_image s s' G f parts Hwf Hfitted u v Hu Hv)
        as (pu & pv & Hpu & Hpv & Hin & Hadj).
      unfold pair_of, persona_pair in Hpq. rewrite Hpu, Hpv in Hpq. simpl in Hpq.
      injection Hpq as -> ->.
      exists pu. split; [by apply list_elem_of_fmap_2|].
      apply list_elem_of_filter. split; [done|].
      by apply (fitted_component_owner s s' G f parts Hnd Hfitted u v).
    + intros (p' & (q' & [= -> ->] & Hq)%list_elem_of_fmap & [Hp Hown]%list_elem_of_filter).
      apply list_elem_of_fmap in Hq as ([q2 dd] & -> & Hadj). simpl.
      destruct (fitted_adjacency_origin s s' G f parts Hwf Hfitted p' q2 dd Hp Hadj)
        as (a & b & d & Ha & Hab & Hpa & Hqb & _).
      assert (a = u) as ->.
      { pose proof (fitted_component_owner s s' G f parts Hnd Hfitted a b p' Ha Hpa) as Ho.
        assert (personality_map s' !! p' = Some a) as E1
          by (by apply (fitted_owner s s' G f parts Hnd Hfitted)).
        assert (personality_map s' !! p' = Some u) as E2
          by (by apply (fitted_owner s s' G f parts Hnd Hfitted)).
        congruence. }
      exists b. split.
      * unfold pair_of, persona_pair. by rewrite Hpa, Hqb.
      * apply list_elem_of_fmap. by exists (b, d).
Qed.

Lemma degree_split_witness :
  sum_list ((λ p, length (neighbors
                            (persona_graph
                               (@fit example_external star_graph default_estimator).1) p))
              <$> filter (λ p, p ∈ nodes (persona_graph
                               (@fit example_external star_graph default_estimator).1))
                    (personas_of (@fit example_external star_graph default_estimator).1 0))
  = length (neighbors star_graph 0).
Proof.
  apply (@degree_split example_external default_estimator
           (@fit example_external star_graph default_estimator).1 star_graph 0).
  - apply graph_wf_by_compute. vm_compute. reflexivity.
  - apply run_ok. vm_compute. reflexivity.
  - vm_compute. left.
Defined.

(** ** Completion *)



